(** * Fractal generators: iterated function systems and Lindenmayer systems

    A shallow embedding of [fractals/ifs.py] ([ifs], [clifford_attractor])
    and [fractals/lsys.py] ([calc_rot_matrix], [generate_pattern],
    [generate_points]), and the properties their specification states.

    Numbers.  The Python code computes on IEEE floats: parameters and
    intermediate results are 64-bit, the arrays hold [PRECISION] =
    [np.float32].  The embedding is written once over an interface of the
    operations the code uses ([Arith], [Trig]); every value stored into an
    array goes through [to_precision].  The program's arithmetic is the
    instance of binary floats, from the Standard Library's [SpecFloat]
    (executable; [np.sin] and [np.cos], which IEEE does not define, are
    parameters of it).  Theorems are stated over the interface, or at the
    float instance where they depend on the values computed.

    Failure.  A Python exception is a value of [result]; the random number
    generator is the stream of its future draws, threaded through [ifs]. *)

From Stdlib Require Import QArith Qabs ZArith List String Ascii Reals Lra Lia.
From Stdlib Require Import Floats.SpecFloat.
From stdpp Require Import base option list gmap strings.

(** ** Exceptions *)

Inductive exn : Type :=
| ValueError   (* np.zeros with a negative dimension *)
| IndexError.  (* index out of bounds *)

Inductive result (A : Type) : Type :=
| Ok (v : A)
| Raise (e : exn).
Arguments Ok {A} v.
Arguments Raise {A} e.

#[global] Instance result_ret : MRet result := fun _ v => Ok v.
#[global] Instance result_bind : MBind result := fun _ _ k m =>
  match m with
  | Ok v => k v
  | Raise e => Raise e
  end.

(** [for x in xs: s = body x s], stopping at the first exception. *)
Fixpoint for_in {A S : Type} (xs : list A) (body : A -> S -> result S) (s : S)
  : result S :=
  match xs with
  | [] => Ok s
  | x :: xs' => s' ← body x s; for_in xs' body s'
  end.

(** [range(start, stop)] for [0 <= start]; empty when [stop <= start]. *)
Definition range (start stop : Z) : list nat :=
  seq (Z.to_nat start) (Z.to_nat (stop - start)).

(** ** Numbers *)

Class Arith : Type := {
  F : Type;
  fzero : F;
  fone : F;
  fadd : F -> F -> F;
  fmul : F -> F -> F;
  fopp : F -> F;
  fgt : F -> F -> bool;          (* Python's [>] *)
  fle : F -> F -> bool;          (* Python's [<=] *)
  to_precision : F -> F;         (* conversion to PRECISION on a store *)
  (* the one order fact the thresholds rely on: -1.0 is below every
     non-negative number *)
  fgt_minus_one : forall u, fle fzero u = true -> fgt u (fopp fone) = true
}.

Class Trig (A : Arith) : Type := {
  fdiv : F -> F -> F;
  fsqrt : F -> F;
  fsin : F -> F;
  fcos : F -> F;
  radians : F -> F               (* np.radians: degrees to radians *)
}.

(** *** Binary floats: parameters in binary64, arrays in binary32 *)

Module Float.
Definition prec64 : Z := 53.
Definition emax64 : Z := 1024.
Definition prec32 : Z := 24.
Definition emax32 : Z := 128.

Definition of_Z (z : Z) : spec_float := binary_normalize prec64 emax64 z 0 false.

(** Rounding of a binary64 value to the nearest binary32 value, kept in
    the binary64 format (every binary32 value is a binary64 value). *)
Definition to_float32 (x : spec_float) : spec_float :=
  match x with
  | S754_finite s m e =>
      match binary_round prec32 emax32 s m e with
      | S754_finite s' m' e' => binary_round prec64 emax64 s' m' e'
      | y => y
      end
  | _ => x
  end.

(** The decimal literal [n * 10^-digits], correctly rounded. *)
Definition decimal (n : Z) (digits : nat) : spec_float :=
  SFdiv prec64 emax64 (of_Z n) (of_Z (10 ^ Z.of_nat digits)).

Definition gt (x y : spec_float) : bool := SFltb y x.

Definition arith : Arith := {|
  F := spec_float;
  fzero := S754_zero false;
  fone := of_Z 1;
  fadd := SFadd prec64 emax64;
  fmul := SFmul prec64 emax64;
  fopp := SFopp;
  fgt := gt;
  fle := SFleb;
  to_precision := to_float32;
  fgt_minus_one := ltac:(intros u; by destruct u as [| [] | | [] m e])
|}.

(** [np.pi], and [np.radians]: [x * (pi / 180)]. *)
Definition pi : spec_float := S754_finite false 7074237752028440 (-51).
Definition deg2rad (x : spec_float) : spec_float :=
  SFmul prec64 emax64 x (SFdiv prec64 emax64 pi (of_Z 180)).

(** The float instance of [Trig], for given [np.sin] and [np.cos]. *)
Definition trig (sin64 cos64 : spec_float -> spec_float) : Trig arith :=
  @Build_Trig arith (SFdiv prec64 emax64) (SFsqrt prec64 emax64) sin64 cos64
    deg2rad.





(** The rational number a finite float stands for. *)
Definition exact (x : spec_float) : option Q :=
  match x with
  | S754_zero _ => Some 0%Q
  | S754_finite s m e => Some (inject_Z (cond_Zopp s (Zpos m)) * Qpower 2 e)%Q
  | _ => None
  end.



(** Zero or finite: neither an infinity nor NaN. *)
Definition regular (x : spec_float) : Prop :=
  match x with
  | S754_zero _ | S754_finite _ _ _ => True
  | _ => False
  end.
End Float.

(** *** Real numbers

    An instance of the interface with exact operations and no rounding.
    It is not the arithmetic of the program, and no property of the program
    is stated at it: it shows that the hypotheses of theorems stated over
    the interface can be met where [sin] and [cos] are total functions. *)

Module Real.
#[global] Instance Rgt_decision (x y : R) : Decision (x > y)%R := Rgt_dec x y.
#[global] Instance Rle_decision (x y : R) : Decision (x <= y)%R := Rle_dec x y.

Definition gt (x y : R) : bool := bool_decide (x > y)%R.
Definition le (x y : R) : bool := bool_decide (x <= y)%R.

Definition arith : Arith := {|
  F := R;
  fzero := 0%R;
  fone := 1%R;
  fadd := Rplus;
  fmul := Rmult;
  fopp := Ropp;
  fgt := gt;
  fle := le;
  to_precision := fun x => x;
  fgt_minus_one :=
    ltac:(intros u; unfold le, gt; rewrite !bool_decide_eq_true; lra)
|}.

Definition trig : Trig arith :=
  @Build_Trig arith Rdiv sqrt sin cos (fun x => x * (PI / 180))%R.
End Real.

(** ** Arrays and tuples *)

Section Containers.
Context {A : Arith}.

(** [np.zeros(shape=n, dtype=PRECISION)] *)
Definition np_zeros (shape : Z) : result (list F) :=
  if (shape <? 0)%Z then Raise ValueError
  else Ok (replicate (Z.to_nat shape) fzero).

(** [xs[i]] for [0 <= i] *)
Definition getitem (xs : list F) (i : nat) : result F :=
  match xs !! i with
  | Some v => Ok v
  | None => Raise IndexError
  end.

(** [xs[i] = v] on an array of PRECISION, for [0 <= i] *)
Definition setitem (xs : list F) (i : nat) (v : F) : result (list F) :=
  if decide (i < length xs) then Ok (<[i := to_precision v]> xs)
  else Raise IndexError.
End Containers.

(** ** fractals/ifs.py *)

Section IFS.
Context {A : Arith}.

(** The generator behind [np.random.random()]: its future draws.  A call
    returns the first and leaves the rest. *)
Definition Rng : Type := nat -> F.
Definition random (g : Rng) : F * Rng := (g 0, fun n => g (S n)).

Section Maps.
Variables p a b c d e f : list F.

(** Lines 99-100: the two assignments under the [if]. *)
Definition ifs_apply (i j : nat) (xy : list F * list F)
  : result (list F * list F) :=
  let '(x, y) := xy in
  aj ← getitem a j; x1 ← getitem x (i - 1);
  bj ← getitem b j; y1 ← getitem y (i - 1);
  ej ← getitem e j;
  x ← setitem x i (fadd (fadd (fmul aj x1) (fmul bj y1)) ej);
  cj ← getitem c j; x1 ← getitem x (i - 1);
  dj ← getitem d j; y1 ← getitem y (i - 1);
  fj ← getitem f j;
  y ← setitem y i (fadd (fadd (fmul cj x1) (fmul dj y1)) fj);
  Ok (x, y).

(** Lines 96-101: [for j in param_indexes: if temp > p[j]: ...; break]. *)
Fixpoint ifs_scan (temp : F) (i : nat) (js : list nat)
    (xy : list F * list F) : result (list F * list F) :=
  match js with
  | [] => Ok xy
  | j :: js' =>
      pj ← getitem p j;
      if fgt temp pj then ifs_apply i j xy
      else ifs_scan temp i js' xy
  end.

(** Lines 91-101: the body of [for i in range(1, lvl)]. *)
Definition ifs_body (param_indexes : list nat) (i : nat)
    (s : list F * list F * Rng) : result (list F * list F * Rng) :=
  let '(x, y, g) := s in
  let '(temp, g) := random g in
  xy ← ifs_scan temp i param_indexes (x, y);
  Ok (xy, g).

Definition ifs (lvl : Z) (g : Rng) : result (list F * list F * Rng) :=
  let lvl := (lvl + 1)%Z in
  let param_indexes := range 0 (Z.of_nat (length p)) in
  x ← np_zeros lvl;
  y ← np_zeros lvl;
  for_in (range 1 lvl) (ifs_body param_indexes) (x, y, g).
End Maps.

Context {T : Trig A}.

(** Lines 187-188: the body of [for i in range(1, lvl)]. *)
Definition clifford_body (a b c d : F) (i : nat) (s : list F * list F)
  : result (list F * list F) :=
  let '(x, y) := s in
  y1 ← getitem y (i - 1); x1 ← getitem x (i - 1);
  x ← setitem x i (fadd (fsin (fmul a y1)) (fmul c (fcos (fmul a x1))));
  x1 ← getitem x (i - 1); y1 ← getitem y (i - 1);
  y ← setitem y i (fadd (fsin (fmul b x1)) (fmul d (fcos (fmul b y1))));
  Ok (x, y).

Definition clifford_attractor (lvl : Z) (a b c d : F)
  : result (list F * list F) :=
  let lvl := (lvl + 1)%Z in
  x ← np_zeros lvl;
  y ← np_zeros lvl;
  for_in (range 1 lvl) (clifford_body a b c d) (x, y).
End IFS.

(** The parameters of [dragon] (lines 119-125), in binary64, and a stream
    of draws that alternates between 0.1 and 0.9. *)
Module Dragon.
Import Float.
Definition p : list spec_float := [decimal 212527 6; decimal (-10) 1].
Definition a : list spec_float := [decimal 824074 6; decimal 88272 6].
Definition b : list spec_float := [decimal 281428 6; decimal 520988 6].
Definition c : list spec_float := [decimal (-212346) 6; decimal (-463889) 6].
Definition d : list spec_float := [decimal 864198 6; decimal (-377778) 6].
Definition e : list spec_float := [decimal (-1882290) 6; decimal 785360 6].
Definition f : list spec_float := [decimal (-110607) 6; decimal 8095795 6].

Definition draws : @Rng Float.arith :=
  fun n => if Nat.even n then decimal 1 1 else decimal 9 1.
End Dragon.

(** ** fractals/lsys.py *)

(** A Python [str] is a [string] (of 8-bit characters, which covers the
    symbols of every rule of the source); iterating over it yields its
    characters as one-character strings. *)
Fixpoint chars (s : string) : list string :=
  match s with
  | EmptyString => []
  | String ch s' => String ch EmptyString :: chars s'
  end.

(** [''.join(parts)] *)
Definition join (parts : list string) : string :=
  foldr String.append EmptyString parts.

(** [states.count(symbol)] for a one-character [symbol] *)
Definition count (symbol states : string) : nat :=
  length (filter (fun st => st = symbol) (chars states)).

Section Rewriting.
Variable rewrite_rules : gmap string string.

(** Line 53: [''.join([rewrite_rules.get(symbol, symbol) for symbol in states])] *)
Definition rewrite_pass (states : string) : string :=
  join ((fun symbol => default symbol (rewrite_rules !! symbol)) <$> chars states).

(** Lines 52-53: [for _ in range(lvl + 1): states = ...] *)
Definition rewrite_states (lvl : Z) (states : string) : string :=
  fold_left (fun states _ => rewrite_pass states) (range 0 (lvl + 1)) states.

Definition drawing_rules : string := "F+-".

(** Line 57: [''.join([symbol for symbol in states if symbol in drawing_rules])] *)
Definition clean_states (states : string) : string :=
  join (filter (fun symbol => symbol ∈ chars drawing_rules) (chars states)).

Definition generate_pattern (lvl : Z) (states : string) : string :=
  clean_states (rewrite_states lvl states).
End Rewriting.

Section Turtle.
Context {A : Arith} {T : Trig A}.

(** Arithmetic on PRECISION values: the result is rounded to PRECISION. *)
Definition add32 (x y : F) : F := to_precision (fadd x y).
Definition mul32 (x y : F) : F := to_precision (fmul x y).
Definition div32 (x y : F) : F := to_precision (fdiv x y).
Definition sqrt32 (x : F) : F := to_precision (fsqrt x).

(** A 2x2 array, row by row. *)
Record matrix : Type := Matrix { m00 : F; m01 : F; m10 : F; m11 : F }.

Definition calc_rot_matrix (angle : F) : matrix :=
  {| m00 := to_precision (fcos angle); m01 := to_precision (fopp (fsin angle));
     m10 := to_precision (fsin angle); m11 := to_precision (fcos angle) |}.

(** [np.dot(m, vec)] for a 2x2 [m] and a 2x1 [vec] *)
Definition dot (m : matrix) (vec : F * F) : F * F :=
  (add32 (mul32 (m00 m) vec.1) (mul32 (m01 m) vec.2),
   add32 (mul32 (m10 m) vec.1) (mul32 (m11 m) vec.2)).

(** The loop state of [generate_points]; [points] is the 2xN array, as
    its two rows. *)
Record turtle : Type := Turtle {
  vec : F * F;
  points : list F * list F;
  point_index : nat
}.

(** The rows of [points] have [n] columns and [point_index] is at least 1. *)
Definition turtle_wf (n : nat) (s : turtle) : Prop :=
  length (points s).1 = n /\ length (points s).2 = n /\ 1 <= point_index s.

(** [points[:, k]] *)
Definition get_column (points : list F * list F) (k : nat) : result (F * F) :=
  px ← getitem points.1 k; py ← getitem points.2 k; Ok (px, py).

(** [points[:, k] = v] *)
Definition set_column (points : list F * list F) (k : nat) (v : F * F)
  : result (list F * list F) :=
  row0 ← setitem points.1 k v.1; row1 ← setitem points.2 k v.2; Ok (row0, row1).

(** Lines 114-120: the body of [for st in states]. *)
Definition turtle_step (rot_left rot_right : matrix) (st : string) (s : turtle)
  : result turtle :=
  if decide (st = "+") then
    Ok {| vec := dot rot_right (vec s); points := points s;
          point_index := point_index s |}
  else if decide (st = "-") then
    Ok {| vec := dot rot_left (vec s); points := points s;
          point_index := point_index s |}
  else
    prev ← get_column (points s) (point_index s - 1);
    points' ← set_column (points s) (point_index s)
                (fadd prev.1 (vec s).1, fadd prev.2 (vec s).2);
    Ok {| vec := vec s; points := points'; point_index := point_index s + 1 |}.

(** Lines 94, 98-102 and 109-111: the state before the loop. *)
Definition turtle_init (alpha length : F) (states : string) : result turtle :=
  let alpha := radians alpha in
  let vec := (to_precision (fcos alpha), to_precision (fsin alpha)) in
  let vec_len := sqrt32 (add32 (mul32 vec.1 vec.1) (mul32 vec.2 vec.2)) in
  let vec := (mul32 (div32 vec.1 vec_len) (to_precision length),
              mul32 (div32 vec.2 vec_len) (to_precision length)) in
  let columns := Z.of_nat (count "F" states + 1) in
  row0 ← np_zeros columns;
  row1 ← np_zeros columns;
  Ok {| vec := vec; points := (row0, row1); point_index := 1 |}.

(** Lines 95, 105-106 and 113-120: the two rotation matrices and the loop
    over a string of symbols, from a given state. *)
Definition turtle_run (theta : F) (symbols : string) (s : turtle) : result turtle :=
  let theta := radians theta in
  let rot_left := calc_rot_matrix theta in
  let rot_right := calc_rot_matrix (fopp theta) in
  for_in (chars symbols) (turtle_step rot_left rot_right) s.

Definition generate_points (alpha theta length : F) (states : string)
  : result (list F * list F) :=
  s ← turtle_init alpha length states;
  s ← turtle_run theta states s;
  Ok (points s).
End Turtle.

(** ** What the specification calls things *)

Section SpecWords.
Context {A : Arith}.

(** A draw from the uniform distribution on [0, 1). *)
Definition unit_draw (u : F) : Prop := fle fzero u = true /\ fgt fone u = true.

(** [j] is the first map, in list order, whose threshold is below [u]. *)
Definition first_match (p : list F) (u : F) (j : nat) : Prop :=
  (exists pj, p !! j = Some pj /\ fgt u pj = true) /\
  forall k pk, k < j -> p !! k = Some pk -> fgt u pk = false.

(** No threshold is below [u]. *)
Definition no_match (p : list F) (u : F) : Prop :=
  forall k pk, p !! k = Some pk -> fgt u pk = false.

(** The image of [(x, y)] under the [j]-th map, as stored in the arrays:
    [x' = a x + b y + e], [y' = c x + d y + f]. *)
Definition affine_image (a b c d e f : list F) (j : nat) (xy xy' : F * F) : Prop :=
  exists aj bj cj dj ej fj,
    a !! j = Some aj /\ b !! j = Some bj /\ c !! j = Some cj /\
    d !! j = Some dj /\ e !! j = Some ej /\ f !! j = Some fj /\
    xy'.1 = to_precision (fadd (fadd (fmul aj xy.1) (fmul bj xy.2)) ej) /\
    xy'.2 = to_precision (fadd (fadd (fmul cj xy.1) (fmul dj xy.2)) fj).

(** One step of the attractor's recurrence, as stored in the arrays:
    [x' = sin(a y) + c cos(a x)], [y' = sin(b x) + d cos(b y)]. *)
Definition clifford_step {T : Trig A} (a b c d : F) (xy : F * F) : F * F :=
  (to_precision (fadd (fsin (fmul a xy.2)) (fmul c (fcos (fmul a xy.1)))),
   to_precision (fadd (fsin (fmul b xy.1)) (fmul d (fcos (fmul b xy.2))))).

(** [xs], [ys] hold an orbit of the recurrence from the origin. *)
Definition clifford_orbit {T : Trig A} (a b c d : F) (n : nat) (xs ys : list F) : Prop :=
  xs !! 0 = Some fzero /\ ys !! 0 = Some fzero /\
  forall i, 1 <= i <= n ->
    exists x0 y0,
      xs !! (i - 1) = Some x0 /\ ys !! (i - 1) = Some y0 /\
      xs !! i = Some (clifford_step a b c d (x0, y0)).1 /\
      ys !! i = Some (clifford_step a b c d (x0, y0)).2.

(** The parameter arrays all have the length of [p]. *)
Definition same_length (p a b c d e f : list F) : Prop :=
  length a = length p /\ length b = length p /\ length c = length p /\
  length d = length p /\ length e = length p /\ length f = length p.
End SpecWords.

(** One simultaneous rewrite pass, in the specification's words: every
    symbol is replaced by its rule's text, or by itself when no rule is
    registered for it; the text produced is not looked at again. *)
Fixpoint simultaneous_pass (rules : gmap string string) (symbols : string) : string :=
  match symbols with
  | EmptyString => EmptyString
  | String ch rest =>
      let symbol := String ch EmptyString in
      (match rules !! symbol with
       | Some replacement => replacement
       | None => symbol
       end ++ simultaneous_pass rules rest)%string
  end.

(** The number of symbols of [cs] on which the turtle steps forward. *)
Definition forward_steps (cs : list string) : nat :=
  length (filter (fun st => st <> "+" /\ st <> "-")%string cs).

(** The symbols the turtle draws or turns on. *)
Definition drawing_alphabet (symbols : string) : Prop :=
  Forall (fun st => st = "F" \/ st = "+" \/ st = "-")%string (chars symbols).

(** ** The callers *)

Section Lindemayer.
Context {A : Arith} {T : Trig A}.

(** Lines 166-167 of [lindemayer]: the points handed to [plt.plot] (the
    plot itself is outside the model). *)
Definition lindemayer (lvl : Z) (length init_angle angle : F)
    (init_state : string) (rewrite_rules : gmap string string)
  : result (list F * list F) :=
  let states := generate_pattern rewrite_rules lvl init_state in
  generate_points init_angle angle length states.
End Lindemayer.

(** The presets with one rule, for [F] (lines 201-223 and 241-248); the
    defaults of [length], [init_angle] and [angle] are left to the
    caller. *)
Section LindemayerPresets.
Context {A : Arith} {T : Trig A}.

Definition tetra_dragon (lvl : Z) (length init_angle angle : F) :=
  lindemayer lvl length init_angle angle "F" {[ "F" := "F+F-F" ]}%string.

Definition levy_dragon (lvl : Z) (length init_angle angle : F) :=
  lindemayer lvl length init_angle angle "F" {[ "F" := "+F--F+" ]}%string.

Definition koch_snowflake (lvl : Z) (length init_angle angle : F) :=
  lindemayer lvl length init_angle angle "F++F++F" {[ "F" := "F-F++F-F" ]}%string.

Definition koch_curve (lvl : Z) (length init_angle angle : F) :=
  lindemayer lvl length init_angle angle "F+F+F+F"
    {[ "F" := "F+F-F-FF+F+F-F" ]}%string.

Definition sierpinski_triangle (lvl : Z) (length init_angle angle : F) :=
  lindemayer lvl length init_angle angle "F+F+F" {[ "F" := "F+F-F-F+F" ]}%string.

Definition tiles (lvl : Z) (length init_angle angle : F) :=
  lindemayer lvl length init_angle angle "F+F+F+F" {[ "F" := "FF+F-F+F+FF" ]}%string.

Definition pentadendryt (lvl : Z) (length init_angle angle : F) :=
  lindemayer lvl length init_angle angle "F" {[ "F" := "F+F-F--F+F+F" ]}%string.
End LindemayerPresets.

(** The presets with rules for [X] and [Y] (lines 191-198 and 226-238). *)
Section LindemayerPresetsXY.
Context {A : Arith} {T : Trig A}.

Definition heighway_dragon (lvl : Z) (length init_angle angle : F) :=
  lindemayer lvl length init_angle angle "FX"
    {[ "X" := "X+YF+"; "Y" := "-FX-Y" ]}%string.

Definition twin_dragon (lvl : Z) (length init_angle angle : F) :=
  lindemayer lvl length init_angle angle "FX+FX+"
    {[ "X" := "X+YF"; "Y" := "FX-Y" ]}%string.

Definition hilbert_curve (lvl : Z) (length init_angle angle : F) :=
  lindemayer lvl length init_angle angle "X"
    {[ "X" := "-YF+XFX+FY-"; "Y" := "+XF-YFY-FX+" ]}%string.

Definition moor_curve (lvl : Z) (length init_angle angle : F) :=
  lindemayer lvl length init_angle angle "XFX+F+XFX"
    {[ "X" := "-YF+XFX+FY-"; "Y" := "+XF-YFY-FX+" ]}%string.

Definition peano_curve (lvl : Z) (length init_angle angle : F) :=
  lindemayer lvl length init_angle angle "X"
    {[ "X" := "XFYFX+F+YFXFY-F-XFYFX"; "Y" := "YFXFY-F-XFYFX+F+YFXFY" ]}%string.
End LindemayerPresetsXY.

(** The parameters of [spiral], [fern_leaf] and [maple_leaf] (lines
    107-113, 131-137 and 143-149), in binary64. *)
Module Spiral.
Import Float.
Definition p : list spec_float := [decimal 104348 6; decimal 52174 6; decimal (-10) 1].
Definition a : list spec_float := [decimal 787879 6; decimal (-121212) 6; decimal 181818 6].
Definition b : list spec_float := [decimal (-424242) 6; decimal 257576 6; decimal (-136364) 6].
Definition c : list spec_float := [decimal 242424 6; decimal 151515 6; decimal 90909 6].
Definition d : list spec_float := [decimal 859848 6; decimal 53030 6; decimal 181818 6].
Definition e : list spec_float := [decimal 1758647 6; decimal (-6721654) 6; decimal 6086107 6].
Definition f : list spec_float := [decimal 1408065 6; decimal 1377236 6; decimal 1568035 6].
End Spiral.

Module FernLeaf.
Import Float.
Definition p : list spec_float :=
  [decimal 15 2; decimal 8 2; decimal 1 2; decimal (-10) 1].
Definition a : list spec_float :=
  [decimal 85 2; decimal (-15) 2; decimal 20 2; decimal 0 1].
Definition b : list spec_float :=
  [decimal 4 2; decimal 28 2; decimal (-26) 2; decimal 0 1].
Definition c : list spec_float :=
  [decimal (-4) 2; decimal 26 2; decimal 23 2; decimal 0 1].
Definition d : list spec_float :=
  [decimal 85 2; decimal 24 2; decimal 22 2; decimal 16 2].
Definition e : list spec_float :=
  [decimal 0 1; decimal 0 1; decimal 0 1; decimal 0 1].
Definition f : list spec_float :=
  [decimal 16 1; decimal 44 2; decimal 16 1; decimal 0 1].
End FernLeaf.

Module MapleLeaf.
Import Float.
Definition p : list spec_float :=
  [decimal 65 2; decimal 3 1; decimal 1 1; decimal (-10) 1].
Definition a : list spec_float :=
  [decimal 43 2; decimal 45 2; decimal 49 2; decimal 14 2].
Definition b : list spec_float :=
  [decimal 52 2; decimal (-49) 2; decimal 0 1; decimal 1 2].
Definition c : list spec_float :=
  [decimal (-45) 2; decimal 47 2; decimal 0 1; decimal 0 1].
Definition d : list spec_float :=
  [decimal 5 1; decimal 47 2; decimal 51 2; decimal 51 2].
Definition e : list spec_float :=
  [decimal 149 2; decimal (-162) 2; decimal 2 2; decimal (-8) 2].
Definition f : list spec_float :=
  [decimal (-75) 2; decimal (-74) 2; decimal 162 2; decimal (-131) 2].
End MapleLeaf.

(** [spiral], [dragon], [fern_leaf] and [maple_leaf]: the arrays handed
    to [plotf] (the plot itself is outside the model). *)
Definition spiral (lvl : Z) (g : @Rng Float.arith) :=
  @ifs Float.arith Spiral.p Spiral.a Spiral.b Spiral.c Spiral.d Spiral.e
    Spiral.f lvl g.
Definition dragon (lvl : Z) (g : @Rng Float.arith) :=
  @ifs Float.arith Dragon.p Dragon.a Dragon.b Dragon.c Dragon.d Dragon.e
    Dragon.f lvl g.
Definition fern_leaf (lvl : Z) (g : @Rng Float.arith) :=
  @ifs Float.arith FernLeaf.p FernLeaf.a FernLeaf.b FernLeaf.c FernLeaf.d
    FernLeaf.e FernLeaf.f lvl g.
Definition maple_leaf (lvl : Z) (g : @Rng Float.arith) :=
  @ifs Float.arith MapleLeaf.p MapleLeaf.a MapleLeaf.b MapleLeaf.c MapleLeaf.d
    MapleLeaf.e MapleLeaf.f lvl g.

Section OrbitWords.
Context {A : Arith}.

(** [p] is sorted in strictly descending order. *)
Fixpoint descending (p : list F) : Prop :=
  match p with
  | x :: (y :: _) as rest => fgt x y = true /\ descending rest
  | _ => True
  end.

(** [res] holds [lvl + 1] points, each after the first the image of its
    predecessor under the first map whose threshold is below its draw. *)
Definition chaos_game (p a b c d e f : list F) (lvl : Z) (g : Rng)
    (res : result (list F * list F * Rng)) : Prop :=
  exists xs ys g',
    res = Ok (xs, ys, g') /\
    length xs = Z.to_nat lvl + 1 /\ length ys = Z.to_nat lvl + 1 /\
    forall i, 1 <= i <= Z.to_nat lvl ->
      exists j x0 y0 x1 y1,
        first_match p (g (i - 1)) j /\
        xs !! (i - 1) = Some x0 /\ ys !! (i - 1) = Some y0 /\
        xs !! i = Some x1 /\ ys !! i = Some y1 /\
        affine_image a b c d e f j (x0, y0) (x1, y1).
End OrbitWords.

(** [res] holds [n] points. *)
Definition returns_points {A : Arith} (res : result (list F * list F)) (n : nat)
  : Prop :=
  exists px py, res = Ok (px, py) /\ length px = n /\ length py = n.

(** A one-character string: what iterating over a [str] yields. *)
Definition one_char (st : string) : Prop := exists ch, st = String ch EmptyString.

(** * Properties *)

(** ** The error monad and the containers *)

Lemma for_in_app {A S : Type} (xs ys : list A) (body : A -> S -> result S) (s : S) :
  for_in (xs ++ ys) body s = s' ← for_in xs body s; for_in ys body s'.
Proof.
  revert s. induction xs as [|x xs IH]; intros s; simpl; [done|].
  destruct (body x s) as [s'|err]; simpl; [apply IH | done].
Qed.

Section ContainerFacts.
Context {A : Arith}.

Lemma np_zeros_ok (n : Z) :
  (0 <= n)%Z -> np_zeros n = Ok (replicate (Z.to_nat n) fzero).
Proof. intros H. unfold np_zeros. destruct (Z.ltb_spec n 0); [lia | done]. Qed.

Lemma np_zeros_negative (n : Z) : (n < 0)%Z -> np_zeros n = Raise ValueError.
Proof. intros H. unfold np_zeros. destruct (Z.ltb_spec n 0); [done | lia]. Qed.

Lemma getitem_ok (xs : list F) (i : nat) (v : F) :
  xs !! i = Some v -> getitem xs i = Ok v.
Proof. intros H. unfold getitem. by rewrite H. Qed.

Lemma setitem_ok (xs : list F) (i : nat) (v : F) :
  i < length xs -> setitem xs i v = Ok (<[i := to_precision v]> xs).
Proof. intros H. unfold setitem. by rewrite decide_True. Qed.

Lemma setitem_out_of_bounds (xs : list F) (i : nat) (v : F) :
  length xs <= i -> setitem xs i v = Raise IndexError.
Proof. intros H. unfold setitem. rewrite decide_False; [done | lia]. Qed.
End ContainerFacts.

Ltac run_ok :=
  repeat (first [ erewrite getitem_ok by eauto
                | rewrite setitem_ok by (rewrite ?length_insert; eauto; lia) ];
          simpl).
Section IFSFacts.
Context {A : Arith}.
Variables p a b c d e f : list F.
Hypothesis Hlen : same_length p a b c d e f.

Lemma ifs_apply_ok (i j : nat) (x y : list F) (x0 y0 : F) :
  j < length p -> 1 <= i -> i < length x -> i < length y ->
  x !! (i - 1) = Some x0 -> y !! (i - 1) = Some y0 ->
  exists x1 y1,
    ifs_apply a b c d e f i j (x, y) = Ok (<[i := x1]> x, <[i := y1]> y) /\
    affine_image a b c d e f j (x0, y0) (x1, y1).
Proof.
  intros Hj Hi Hx Hy Hx0 Hy0.
  destruct Hlen as (Ha & Hb & Hc & Hd & He & Hf).
  destruct (lookup_lt_is_Some_2 a j) as [aj Haj]; [lia|].
  destruct (lookup_lt_is_Some_2 b j) as [bj Hbj]; [lia|].
  destruct (lookup_lt_is_Some_2 c j) as [cj Hcj]; [lia|].
  destruct (lookup_lt_is_Some_2 d j) as [dj Hdj]; [lia|].
  destruct (lookup_lt_is_Some_2 e j) as [ej Hej]; [lia|].
  destruct (lookup_lt_is_Some_2 f j) as [fj Hfj]; [lia|].
  assert (forall v, <[i := v]> x !! (i - 1) = Some x0) as Hx0'.
  { intros v. rewrite list_lookup_insert_ne by lia. done. }
  eexists _, _. split.
  - unfold ifs_apply. run_ok. reflexivity.
  - exists aj, bj, cj, dj, ej, fj. done.
Qed.

Lemma ifs_scan_from (temp : F) (i : nat) (x y : list F) (x0 y0 : F) (m k : nat) :
  k + m = length p -> 1 <= i -> i < length x -> i < length y ->
  x !! (i - 1) = Some x0 -> y !! (i - 1) = Some y0 ->
  (forall k' pk, k' < k -> p !! k' = Some pk -> fgt temp pk = false) ->
  (exists j x1 y1,
      first_match p temp j /\ affine_image a b c d e f j (x0, y0) (x1, y1) /\
      ifs_scan p a b c d e f temp i (seq k m) (x, y)
        = Ok (<[i := x1]> x, <[i := y1]> y)) \/
  (no_match p temp /\
   ifs_scan p a b c d e f temp i (seq k m) (x, y) = Ok (x, y)).
Proof.
  intros Hkm Hi Hx Hy Hx0 Hy0. revert k Hkm.
  induction m as [|m IH]; intros k Hkm Hbefore.
  - right. split; [|done]. intros k' pk Hk'. apply (Hbefore k'); [|done].
    apply lookup_lt_Some in Hk'. lia.
  - destruct (lookup_lt_is_Some_2 p k) as [pk Hpk]; [lia|].
    simpl. rewrite (getitem_ok _ _ _ Hpk). simpl.
    destruct (fgt temp pk) eqn:Hgt.
    + left. destruct (ifs_apply_ok i k x y x0 y0) as (x1 & y1 & Happ & Himg);
        [lia | done..|].
      exists k, x1, y1. repeat split; eauto.
    + apply IH; [lia|]. intros k' pk' Hk' Hpk'.
      destruct (decide (k' = k)) as [->|]; [congruence|].
      apply (Hbefore k'); [lia | done].
Qed.

Lemma ifs_loop (m k : nat) (x y : list F) (g : Rng) :
  1 <= k -> k + m = length x -> length y = length x ->
  exists x' y' g',
    for_in (seq k m) (ifs_body p a b c d e f (seq 0 (length p))) (x, y, g)
      = Ok (x', y', g') /\
    length x' = length x /\ length y' = length x /\
    (forall n, g' n = g (m + n)) /\
    (forall i, i < k -> x' !! i = x !! i /\ y' !! i = y !! i) /\
    forall i, k <= i < k + m ->
      (exists j x0 y0 x1 y1,
          first_match p (g (i - k)) j /\
          x' !! (i - 1) = Some x0 /\ y' !! (i - 1) = Some y0 /\
          x' !! i = Some x1 /\ y' !! i = Some y1 /\
          affine_image a b c d e f j (x0, y0) (x1, y1)) \/
      (no_match p (g (i - k)) /\ x' !! i = x !! i /\ y' !! i = y !! i).
Proof.
  revert k x y g. induction m as [|m IH]; intros k x y g Hk Hkm Hy.
  - exists x, y, g. simpl. repeat split; try done. lia.
  - destruct (lookup_lt_is_Some_2 x (k - 1)) as [x0 Hx0]; [lia|].
    destruct (lookup_lt_is_Some_2 y (k - 1)) as [y0 Hy0]; [lia|].
    assert (exists x1 y1,
      ifs_scan p a b c d e f (g 0) k (seq 0 (length p)) (x, y) = Ok (x1, y1) /\
      length x1 = length x /\ length y1 = length x /\
      (forall i, i <> k -> x1 !! i = x !! i /\ y1 !! i = y !! i) /\
      ((exists j vx vy,
          first_match p (g 0) j /\ x1 !! k = Some vx /\ y1 !! k = Some vy /\
          affine_image a b c d e f j (x0, y0) (vx, vy)) \/
       (no_match p (g 0) /\ x1 = x /\ y1 = y))) as (x1 & y1 & Hscan & Hx1 & Hy1 & Hother & Hk1).
    { destruct (ifs_scan_from (g 0) k x y x0 y0 (length p) 0)
        as [(j & vx & vy & Hj & Himg & Hscan) | [Hno Hscan]];
        [lia.. | done | done | intros; lia | |].
      - eexists _, _. split; [exact Hscan|].
        rewrite !length_insert. repeat split; [lia | |  | ].
        + by rewrite list_lookup_insert_ne.
        + by rewrite list_lookup_insert_ne.
        + left. exists j, vx, vy. repeat split; try apply Hj; try done.
          * apply list_lookup_insert_eq. lia.
          * apply list_lookup_insert_eq. lia.
      - exists x, y. repeat split; try done. right. done. }
    destruct (IH (S k) x1 y1 (fun n => g (S n))) as
      (x' & y' & g' & Hrun & Hx' & Hy' & Hg' & Hlow & Hsteps); [lia..|].
    exists x', y', g'. split.
    { simpl. rewrite Hscan. simpl. exact Hrun. }
    split; [lia|]. split; [lia|]. split.
    { intros n. rewrite Hg'. f_equal. }
    split.
    { intros i Hi. destruct (Hlow i) as [-> ->]; [lia|]. apply Hother. lia. }
    intros i Hi. destruct (decide (i = k)) as [->|Hne].
    + replace (k - k) with 0 by lia.
      destruct (Hlow k) as [Hxk Hyk]; [lia|].
      destruct (Hlow (k - 1)) as [Hxk' Hyk']; [lia|].
      destruct (Hother (k - 1)) as [Hxo Hyo]; [lia|].
      destruct Hk1 as [(j & vx & vy & Hj & Hvx & Hvy & Himg) | (Hno & -> & ->)].
      * left. exists j, x0, y0, vx, vy. repeat split; try apply Hj; try congruence.
      * right. done.
    + replace (i - k) with (S (i - S k)) by lia.
      destruct (Hsteps i) as [Hstep | (Hno & Hxi & Hyi)]; [lia | by left |].
      right. destruct (Hother i) as [<- <-]; done.
Qed.
End IFSFacts.

Section IFSTheorems.
Context {A : Arith}.

Lemma ifs_run (p a b c d e f : list F) (lvl : Z) (g : Rng) :
  (0 <= lvl)%Z -> same_length p a b c d e f ->
  exists xs ys g',
    ifs p a b c d e f lvl g = Ok (xs, ys, g') /\
    length xs = Z.to_nat lvl + 1 /\ length ys = Z.to_nat lvl + 1 /\
    xs !! 0 = Some fzero /\ ys !! 0 = Some fzero /\
    (forall n, g' n = g (Z.to_nat lvl + n)) /\
    forall i, 1 <= i <= Z.to_nat lvl ->
      (exists j x0 y0 x1 y1,
          first_match p (g (i - 1)) j /\
          xs !! (i - 1) = Some x0 /\ ys !! (i - 1) = Some y0 /\
          xs !! i = Some x1 /\ ys !! i = Some y1 /\
          affine_image a b c d e f j (x0, y0) (x1, y1)) \/
      (no_match p (g (i - 1)) /\ xs !! i = Some fzero /\ ys !! i = Some fzero).
Proof.
  intros Hlvl Hlen. unfold ifs.
  rewrite np_zeros_ok by lia. simpl.
  unfold range. change (Z.to_nat 0) with 0. change (Z.to_nat 1) with 1.
  replace (Z.to_nat (Z.of_nat (length p) - 0)) with (length p) by lia.
  replace (Z.to_nat (lvl + 1 - 1)) with (Z.to_nat lvl) by lia.
  replace (Z.to_nat (lvl + 1)) with (S (Z.to_nat lvl)) by lia.
  set (zeros := replicate (S (Z.to_nat lvl)) fzero).
  assert (length zeros = S (Z.to_nat lvl)) as Hzeros by apply length_replicate.
  assert (forall i, i < S (Z.to_nat lvl) -> zeros !! i = Some fzero) as Hz.
  { intros i Hi. by apply lookup_replicate_2. }
  destruct (ifs_loop p a b c d e f Hlen (Z.to_nat lvl) 1 zeros zeros g)
    as (xs & ys & g' & Hrun & Hxs & Hys & Hg' & Hlow & Hsteps); [lia.. | done |].
  exists xs, ys, g'. split; [exact Hrun|].
  destruct (Hlow 0) as [Hx0 Hy0]; [lia|].
  rewrite Hx0, Hy0, Hz by lia.
  repeat split; [lia.. | done |].
  intros i Hi. destruct (Hsteps i) as [Hstep | (Hno & Hxi & Hyi)]; [lia | by left |].
  right. rewrite Hxi, Hyi, Hz by lia. done.
Qed.

Lemma sentinel_matches (p : list F) (u : F) :
  last p = Some (fopp fone) -> unit_draw u -> ~ no_match p u.
Proof.
  intros Hlast [Hu _] Hno. rewrite last_lookup in Hlast.
  specialize (Hno _ _ Hlast). rewrite fgt_minus_one in Hno; done.
Qed.
End IFSTheorems.

Section CliffordFacts.
Context {A : Arith} {T : Trig A}.
Variables a b c d : F.

Lemma clifford_body_ok (i : nat) (x y : list F) (x0 y0 : F) :
  1 <= i -> i < length x -> i < length y ->
  x !! (i - 1) = Some x0 -> y !! (i - 1) = Some y0 ->
  clifford_body a b c d i (x, y) =
    Ok (<[i := (clifford_step a b c d (x0, y0)).1]> x,
        <[i := (clifford_step a b c d (x0, y0)).2]> y).
Proof.
  intros Hi Hx Hy Hx0 Hy0.
  assert (forall v, <[i := v]> x !! (i - 1) = Some x0) as Hx0'.
  { intros v. rewrite list_lookup_insert_ne by lia. done. }
  unfold clifford_body. run_ok. done.
Qed.

Lemma clifford_loop (m k : nat) (x y : list F) :
  1 <= k -> k + m = length x -> length y = length x ->
  exists x' y',
    for_in (seq k m) (clifford_body a b c d) (x, y) = Ok (x', y') /\
    length x' = length x /\ length y' = length x /\
    (forall i, i < k -> x' !! i = x !! i /\ y' !! i = y !! i) /\
    forall i, k <= i < k + m ->
      exists x0 y0,
        x' !! (i - 1) = Some x0 /\ y' !! (i - 1) = Some y0 /\
        x' !! i = Some (clifford_step a b c d (x0, y0)).1 /\
        y' !! i = Some (clifford_step a b c d (x0, y0)).2.
Proof.
  revert k x y. induction m as [|m IH]; intros k x y Hk Hkm Hy.
  - exists x, y. simpl. repeat split; try done. lia.
  - destruct (lookup_lt_is_Some_2 x (k - 1)) as [x0 Hx0]; [lia|].
    destruct (lookup_lt_is_Some_2 y (k - 1)) as [y0 Hy0]; [lia|].
    pose proof (clifford_body_ok k x y x0 y0 ltac:(lia) ltac:(lia) ltac:(lia) Hx0 Hy0) as Hbody.
    set (x1 := <[k := (clifford_step a b c d (x0, y0)).1]> x) in *.
    set (y1 := <[k := (clifford_step a b c d (x0, y0)).2]> y) in *.
    destruct (IH (S k) x1 y1) as (x' & y' & Hrun & Hx' & Hy' & Hlow & Hsteps);
      [subst x1 y1; rewrite ?length_insert; lia..|].
    assert (length x1 = length x) as Hx1 by apply length_insert.
    exists x', y'. split.
    { cbn [seq for_in]. rewrite Hbody. exact Hrun. }
    split; [lia|]. split; [lia|]. split.
    { intros i Hi. destruct (Hlow i) as [-> ->]; [lia|].
      subst x1 y1. rewrite !list_lookup_insert_ne by lia. done. }
    intros i Hi. destruct (decide (i = k)) as [->|Hne]; [|apply Hsteps; lia].
    exists x0, y0.
    destruct (Hlow k) as [-> ->]; [lia|].
    destruct (Hlow (k - 1)) as [-> ->]; [lia|].
    subst x1 y1. rewrite !list_lookup_insert_ne by lia.
    rewrite !list_lookup_insert_eq by lia. done.
Qed.

Lemma clifford_run (lvl : Z) :
  (0 <= lvl)%Z ->
  exists xs ys,
    clifford_attractor lvl a b c d = Ok (xs, ys) /\
    length xs = Z.to_nat lvl + 1 /\ length ys = Z.to_nat lvl + 1 /\
    clifford_orbit a b c d (Z.to_nat lvl) xs ys.
Proof.
  intros Hlvl. unfold clifford_attractor.
  rewrite np_zeros_ok by lia. simpl.
  unfold range. change (Z.to_nat 1) with 1.
  replace (Z.to_nat (lvl + 1 - 1)) with (Z.to_nat lvl) by lia.
  replace (Z.to_nat (lvl + 1)) with (S (Z.to_nat lvl)) by lia.
  set (zeros := replicate (S (Z.to_nat lvl)) fzero).
  assert (length zeros = S (Z.to_nat lvl)) as Hzeros by apply length_replicate.
  destruct (clifford_loop (Z.to_nat lvl) 1 zeros zeros)
    as (xs & ys & Hrun & Hxs & Hys & Hlow & Hsteps); [lia.. | done |].
  exists xs, ys. split; [exact Hrun|]. split; [lia|]. split; [lia|].
  destruct (Hlow 0) as [Hx0 Hy0]; [lia|].
  unfold clifford_orbit. rewrite Hx0, Hy0. split; [done|]. split; [done|].
  intros i Hi. apply Hsteps. lia.
Qed.

Lemma clifford_orbit_unique (n : nat) (xs ys xs' ys' : list F) :
  length xs = n + 1 -> length ys = n + 1 ->
  length xs' = n + 1 -> length ys' = n + 1 ->
  clifford_orbit a b c d n xs ys -> clifford_orbit a b c d n xs' ys' ->
  xs' = xs /\ ys' = ys.
Proof.
  intros Hxs Hys Hxs' Hys' (Hx0 & Hy0 & Hstep) (Hx0' & Hy0' & Hstep').
  assert (forall i, i <= n -> xs' !! i = xs !! i /\ ys' !! i = ys !! i) as Hsame.
  { induction i as [|i IH]; intros Hi; [by rewrite Hx0, Hy0, Hx0', Hy0'|].
    destruct IH as [IHx IHy]; [lia|].
    destruct (Hstep (S i)) as (x0 & y0 & Hx & Hy & -> & ->); [lia|].
    destruct (Hstep' (S i)) as (x0' & y0' & Hx' & Hy' & -> & ->); [lia|].
    replace (S i - 1) with i in * by lia.
    rewrite Hx, Hx' in IHx. rewrite Hy, Hy' in IHy.
    by simplify_eq. }
  split; apply list_eq; intros i; destruct (decide (i <= n)) as [Hi|Hi];
    try (apply Hsame; done);
    rewrite !lookup_ge_None_2 by lia; done.
Qed.
End CliffordFacts.

(** ** The L-system rewriter *)

Lemma append_cons (ch : ascii) (s1 s2 : string) :
  (String ch s1 ++ s2 = String ch (s1 ++ s2))%string.
Proof. reflexivity. Qed.

Lemma append_assoc (s1 s2 s3 : string) :
  (s1 ++ (s2 ++ s3) = (s1 ++ s2) ++ s3)%string.
Proof. induction s1 as [|ch s1 IH]; [done|]. rewrite !append_cons. by rewrite IH. Qed.

Section RewritingFacts.
Variable rules : gmap string string.

Lemma rewrite_pass_simultaneous (states : string) :
  rewrite_pass rules states = simultaneous_pass rules states.
Proof.
  unfold rewrite_pass. induction states as [|ch rest IH]; [done|].
  cbn [chars fmap list_fmap join foldr simultaneous_pass].
  fold (join ((fun symbol => default symbol (rules !! symbol)) <$> chars rest)).
  rewrite IH. by destruct (rules !! String ch EmptyString).
Qed.

Lemma for_range_iter {S B : Type} (f : S -> S) (xs : list B) (s : S) :
  fold_left (fun s _ => f s) xs s = Nat.iter (length xs) f s.
Proof.
  revert s. induction xs as [|x xs IH]; intros s; [done|].
  simpl. rewrite IH. symmetry. apply Nat.iter_succ_r.
Qed.

Lemma rewrite_states_passes (lvl : Z) (states : string) :
  rewrite_states rules lvl states
  = Nat.iter (Z.to_nat (lvl + 1)) (simultaneous_pass rules) states.
Proof.
  unfold rewrite_states. rewrite for_range_iter.
  unfold range. rewrite length_seq, Z.sub_0_r.
  generalize (Z.to_nat (lvl + 1)). intros n. revert states.
  induction n as [|n IH]; intros states; [done|].
  simpl. rewrite IH. apply rewrite_pass_simultaneous.
Qed.

Lemma simultaneous_pass_app (s1 s2 : string) :
  simultaneous_pass rules (s1 ++ s2)
  = (simultaneous_pass rules s1 ++ simultaneous_pass rules s2)%string.
Proof.
  induction s1 as [|ch rest IH]; [done|].
  rewrite append_cons. cbn [simultaneous_pass]. rewrite IH. apply append_assoc.
Qed.
End RewritingFacts.


(** ** The turtle *)

Lemma chars_app (s1 s2 : string) : chars (s1 ++ s2) = chars s1 ++ chars s2.
Proof.
  induction s1 as [|ch s1 IH]; [done|].
  rewrite append_cons. simpl. by rewrite IH.
Qed.

Lemma forward_steps_app (cs1 cs2 : list string) :
  forward_steps (cs1 ++ cs2) = forward_steps cs1 + forward_steps cs2.
Proof. unfold forward_steps. by rewrite filter_app, length_app. Qed.

Lemma forward_steps_cons_turn (st : string) (cs : list string) :
  st = "+"%string \/ st = "-"%string -> forward_steps (st :: cs) = forward_steps cs.
Proof.
  intros H. unfold forward_steps. rewrite filter_cons_False; [done|]. intros []; by destruct H.
Qed.

Lemma forward_steps_cons_forward (st : string) (cs : list string) :
  st <> "+"%string -> st <> "-"%string ->
  forward_steps (st :: cs) = S (forward_steps cs).
Proof. intros H1 H2. unfold forward_steps. by rewrite filter_cons_True. Qed.

Section TurtleFacts.
Context {A : Arith} {T : Trig A}.
Variables rot_left rot_right : matrix.

Lemma turtle_step_plus (s : turtle) :
  turtle_step rot_left rot_right "+" s =
    Ok {| vec := dot rot_right (vec s); points := points s;
          point_index := point_index s |}.
Proof. reflexivity. Qed.

Lemma turtle_step_minus (s : turtle) :
  turtle_step rot_left rot_right "-" s =
    Ok {| vec := dot rot_left (vec s); points := points s;
          point_index := point_index s |}.
Proof. reflexivity. Qed.

Lemma turtle_step_forward (st : string) (s : turtle) (n : nat) :
  st <> "+"%string -> st <> "-"%string ->
  turtle_wf n s -> point_index s < n ->
  exists px py,
    (points s).1 !! (point_index s - 1) = Some px /\
    (points s).2 !! (point_index s - 1) = Some py /\
    turtle_step rot_left rot_right st s =
      Ok {| vec := vec s;
            points := (<[point_index s := to_precision (fadd px (vec s).1)]> (points s).1,
                       <[point_index s := to_precision (fadd py (vec s).2)]> (points s).2);
            point_index := point_index s + 1 |}.
Proof.
  intros Hp Hm (Hr0 & Hr1 & Hidx) Hlt.
  destruct (lookup_lt_is_Some_2 (points s).1 (point_index s - 1)) as [px Hpx]; [lia|].
  destruct (lookup_lt_is_Some_2 (points s).2 (point_index s - 1)) as [py Hpy]; [lia|].
  exists px, py. split; [done|]. split; [done|].
  unfold turtle_step. rewrite !decide_False by done.
  unfold get_column, set_column. run_ok. done.
Qed.

Lemma turtle_step_overflow (st : string) (s : turtle) (n : nat) :
  st <> "+"%string -> st <> "-"%string ->
  turtle_wf n s -> point_index s = n ->
  turtle_step rot_left rot_right st s = Raise IndexError.
Proof.
  intros Hp Hm (Hr0 & Hr1 & Hidx) Heq.
  destruct (lookup_lt_is_Some_2 (points s).1 (point_index s - 1)) as [px Hpx]; [lia|].
  destruct (lookup_lt_is_Some_2 (points s).2 (point_index s - 1)) as [py Hpy]; [lia|].
  unfold turtle_step. rewrite !decide_False by done.
  unfold get_column, set_column. run_ok.
  rewrite !setitem_out_of_bounds by lia. reflexivity.
Qed.

Lemma turtle_loop_ok (cs : list string) (s : turtle) (n : nat) :
  turtle_wf n s -> point_index s + forward_steps cs <= n ->
  exists s',
    for_in cs (turtle_step rot_left rot_right) s = Ok s' /\
    turtle_wf n s' /\
    point_index s' = point_index s + forward_steps cs /\
    forall i, i < point_index s ->
      (points s').1 !! i = (points s).1 !! i /\
      (points s').2 !! i = (points s).2 !! i.
Proof.
  revert s. induction cs as [|st cs IH]; intros s Hwf Hfit.
  - exists s. unfold forward_steps. simpl. split; [done|]. split; [done|]. split; [lia|done].
  - cbn [for_in].
    destruct (decide (st = "+"%string)) as [Hp|Hp];
      [|destruct (decide (st = "-"%string)) as [Hm|Hm]].
    + rewrite forward_steps_cons_turn in * by auto.
      subst st. rewrite turtle_step_plus. cbn [mbind result_bind].
      apply (IH (Turtle _ _ _)); done.
    + rewrite forward_steps_cons_turn in * by auto.
      subst st. rewrite turtle_step_minus. cbn [mbind result_bind].
      apply (IH (Turtle _ _ _)); done.
    + rewrite forward_steps_cons_forward in * by done.
      destruct (turtle_step_forward st s n) as (px & py & Hpx & Hpy & ->);
        [done.. | lia |].
      cbn [mbind result_bind].
      destruct Hwf as (Hr0 & Hr1 & Hidx).
      match goal with |- context [for_in cs _ ?s1] =>
        destruct (IH s1) as (s' & Hrun & Hwf' & Hidx' & Hlow) end.
      { unfold turtle_wf. simpl. rewrite !length_insert. lia. }
      { simpl. lia. }
      exists s'. split; [exact Hrun|]. split; [done|]. simpl in Hidx'.
      split; [lia|]. intros i Hi.
      destruct (Hlow i) as [-> ->]; [simpl; lia|]. simpl.
      rewrite !list_lookup_insert_ne by lia. done.
Qed.

Lemma turtle_loop_overflow (cs : list string) (s : turtle) (n : nat) :
  turtle_wf n s -> point_index s <= n -> n < point_index s + forward_steps cs ->
  for_in cs (turtle_step rot_left rot_right) s = Raise IndexError.
Proof.
  revert s. induction cs as [|st cs IH]; intros s Hwf Hle Hover.
  - unfold forward_steps in Hover. simpl in Hover. lia.
  - cbn [for_in].
    destruct (decide (st = "+"%string)) as [Hp|Hp];
      [|destruct (decide (st = "-"%string)) as [Hm|Hm]].
    + rewrite forward_steps_cons_turn in * by auto.
      subst st. rewrite turtle_step_plus. cbn [mbind result_bind].
      apply (IH (Turtle _ _ _)); done.
    + rewrite forward_steps_cons_turn in * by auto.
      subst st. rewrite turtle_step_minus. cbn [mbind result_bind].
      apply (IH (Turtle _ _ _)); done.
    + rewrite forward_steps_cons_forward in * by done.
      destruct (decide (point_index s = n)) as [Heq|Hne].
      { by rewrite (turtle_step_overflow st s n). }
      destruct (turtle_step_forward st s n) as (px & py & Hpx & Hpy & ->);
        [done.. | lia |].
      cbn [mbind result_bind].
      destruct Hwf as (Hr0 & Hr1 & Hidx).
      apply IH; simpl; [|lia..].
      unfold turtle_wf. simpl. rewrite !length_insert. lia.
Qed.

(** What the turns preserve, the whole loop preserves. *)
Lemma turtle_loop_vec (P : F * F -> Prop) (cs : list string) (s s' : turtle) :
  (forall v, P v -> P (dot rot_left v)) ->
  (forall v, P v -> P (dot rot_right v)) ->
  P (vec s) ->
  for_in cs (turtle_step rot_left rot_right) s = Ok s' ->
  P (vec s').
Proof.
  intros Hl Hr. revert s. induction cs as [|st cs IH]; intros s HP Hrun.
  - simpl in Hrun. by simplify_eq.
  - cbn [for_in] in Hrun.
    destruct (turtle_step rot_left rot_right st s) as [s1|err] eqn:Hstep;
      [|done]. cbn [mbind result_bind] in Hrun.
    apply (IH s1); [|done].
    unfold turtle_step in Hstep. repeat case_decide.
    + simplify_eq. simpl. auto.
    + simplify_eq. simpl. auto.
    + destruct (get_column _ _) as [prev|]; [|done]. simpl in Hstep.
      destruct (set_column _ _ _) as [pts|]; [|done]. simpl in Hstep.
      by simplify_eq.
Qed.
End TurtleFacts.

Lemma forward_steps_F (cs : list string) :
  length (filter (fun st => st = "F"%string) cs) <= forward_steps cs.
Proof.
  unfold forward_steps. induction cs as [|st cs IH]; [done|].
  destruct (decide (st = "F"%string)) as [->|HF].
  - rewrite !filter_cons_True by done. simpl. lia.
  - rewrite (filter_cons_False (fun st => st = "F"%string)) by done.
    rewrite filter_cons. case_decide; simpl; lia.
Qed.

Lemma forward_steps_other (cs : list string) :
  (exists st, st ∈ cs /\ st <> "F" /\ st <> "+" /\ st <> "-")%string ->
  length (filter (fun st => st = "F"%string) cs) < forward_steps cs.
Proof.
  intros (st0 & Hin & HF & Hp & Hm).
  induction cs as [|st cs IH]; [by apply elem_of_nil in Hin|].
  apply elem_of_cons in Hin as [<-|Hin].
  - pose proof (forward_steps_F cs).
    rewrite (filter_cons_False (fun st => st = "F"%string)) by done.
    rewrite forward_steps_cons_forward by done. lia.
  - specialize (IH Hin). pose proof (forward_steps_F [st]) as H1.
    change (st :: cs) with ([st] ++ cs).
    rewrite filter_app, length_app, forward_steps_app. lia.
Qed.

Lemma forward_steps_drawing (states : string) :
  drawing_alphabet states -> forward_steps (chars states) = count "F" states.
Proof.
  unfold drawing_alphabet, count. induction 1 as [|st cs Hst _ IH]; [done|].
  destruct Hst as [->|[->| ->]].
  - rewrite forward_steps_cons_forward, filter_cons_True by done. simpl. lia.
  - rewrite forward_steps_cons_turn, filter_cons_False by auto. done.
  - rewrite forward_steps_cons_turn, filter_cons_False by auto. done.
Qed.

Section TurtleRun.
Context {A : Arith} {T : Trig A}.

Lemma turtle_init_ok (alpha length : F) (states : string) :
  exists s0,
    turtle_init alpha length states = Ok s0 /\
    turtle_wf (count "F" states + 1) s0 /\ point_index s0 = 1 /\
    (points s0).1 !! 0 = Some fzero /\ (points s0).2 !! 0 = Some fzero.
Proof.
  unfold turtle_init. rewrite np_zeros_ok by lia. simpl.
  eexists. split; [reflexivity|]. unfold turtle_wf. simpl.
  rewrite length_replicate, Nat2Z.id.
  repeat split; try lia; apply lookup_replicate_2; lia.
Qed.

Lemma generate_points_overflow (alpha theta length : F) (states : string) :
  (exists st, st ∈ chars states /\ st <> "F" /\ st <> "+" /\ st <> "-")%string ->
  generate_points alpha theta length states = Raise IndexError.
Proof.
  intros Hother. apply forward_steps_other in Hother. fold (count "F" states) in Hother.
  destruct (turtle_init_ok alpha length states) as (s0 & Hinit & Hwf & Hidx & _).
  unfold generate_points. rewrite Hinit. cbn [mbind result_bind].
  unfold turtle_run.
  rewrite (turtle_loop_overflow _ _ _ s0 (count "F" states + 1)); [done | done | lia..].
Qed.
End TurtleRun.

Lemma count_cons (ch : ascii) (rest : string) :
  count "F" (String ch rest)
  = (if decide (String ch EmptyString = "F"%string) then 1 else 0) + count "F" rest.
Proof. unfold count. simpl. rewrite filter_cons. by case_decide. Qed.


Lemma drawing_alphabet_app (s1 s2 : string) :
  drawing_alphabet (s1 ++ s2) <-> drawing_alphabet s1 /\ drawing_alphabet s2.
Proof. unfold drawing_alphabet. rewrite chars_app. apply Forall_app. Qed.

Section TurtlePolyline.
Context {A : Arith} {T : Trig A}.

Lemma turtle_run_split (theta : F) (pre post : string) (s0 : turtle) (n : nat) :
  turtle_wf n s0 ->
  point_index s0 + forward_steps (chars (pre ++ "F" ++ post)) <= n ->
  exists s s_end x0 y0,
    turtle_run theta pre s0 = Ok s /\
    turtle_run theta (pre ++ "F" ++ post) s0 = Ok s_end /\
    turtle_wf n s_end /\
    point_index s = point_index s0 + forward_steps (chars pre) /\
    (forall i, i < point_index s0 ->
       (points s_end).1 !! i = (points s0).1 !! i /\
       (points s_end).2 !! i = (points s0).2 !! i) /\
    (points s_end).1 !! (point_index s - 1) = Some x0 /\
    (points s_end).2 !! (point_index s - 1) = Some y0 /\
    (points s_end).1 !! point_index s = Some (to_precision (fadd x0 (vec s).1)) /\
    (points s_end).2 !! point_index s = Some (to_precision (fadd y0 (vec s).2)).
Proof.
  intros Hwf0 Hfit. unfold turtle_run.
  set (rl := calc_rot_matrix (radians theta)).
  set (rr := calc_rot_matrix (fopp (radians theta))).
  rewrite !chars_app, !forward_steps_app in *.
  change (chars "F") with ["F"%string] in *.
  rewrite forward_steps_cons_forward in Hfit by done.
  change (forward_steps []) with 0 in Hfit.
  destruct (turtle_loop_ok rl rr (chars pre) s0 n) as (s & Hpre & Hwf & Hidx & Hlow);
    [done | lia |].
  destruct (turtle_step_forward rl rr "F" s n) as (x0 & y0 & Hx0 & Hy0 & Hstep);
    [done.. | lia |].
  match type of Hstep with _ = Ok ?t => set (s1 := t) in * end.
  destruct (turtle_loop_ok rl rr (chars post) s1 n)
    as (s_end & Hpost & Hwf_end & Hidx_end & Hlow_end).
  { destruct Hwf as (? & ? & ?). unfold turtle_wf, s1. simpl.
    rewrite !length_insert. lia. }
  { unfold s1. simpl. lia. }
  exists s, s_end, x0, y0. split; [done|]. split.
  { rewrite for_in_app, Hpre. cbn [mbind result_bind for_in app].
    rewrite Hstep. cbn [mbind result_bind]. exact Hpost. }
  split; [done|]. split; [done|].
  destruct Hwf as (Hr0 & Hr1 & Hge).
  assert (forall i, i <= point_index s ->
    (points s_end).1 !! i = (points s1).1 !! i /\
    (points s_end).2 !! i = (points s1).2 !! i) as Hkeep.
  { intros i Hi. apply Hlow_end. unfold s1. simpl. lia. }
  split.
  { intros i Hi. destruct (Hkeep i) as [-> ->]; [lia|]. unfold s1. simpl.
    rewrite !list_lookup_insert_ne by lia. apply Hlow. done. }
  destruct (Hkeep (point_index s - 1)) as [-> ->]; [lia|].
  destruct (Hkeep (point_index s)) as [-> ->]; [lia|].
  unfold s1. simpl.
  rewrite !list_lookup_insert_ne by lia.
  rewrite !list_lookup_insert_eq by lia. done.
Qed.

Lemma generate_points_polyline (alpha theta length : F) (states : string) :
  drawing_alphabet states ->
  exists s0 px py,
    turtle_init alpha length states = Ok s0 /\
    generate_points alpha theta length states = Ok (px, py) /\
    List.length px = count "F" states + 1 /\
    List.length py = count "F" states + 1 /\
    px !! 0 = Some fzero /\ py !! 0 = Some fzero /\
    forall pre post, states = (pre ++ "F" ++ post)%string ->
      exists s x0 y0,
        turtle_run theta pre s0 = Ok s /\
        px !! count "F" pre = Some x0 /\ py !! count "F" pre = Some y0 /\
        px !! (count "F" pre + 1) = Some (to_precision (fadd x0 (vec s).1)) /\
        py !! (count "F" pre + 1) = Some (to_precision (fadd y0 (vec s).2)).
Proof.
  intros Hdraw.
  destruct (turtle_init_ok alpha length states) as (s0 & Hinit & Hwf & Hidx & Hx0 & Hy0).
  pose proof (forward_steps_drawing states Hdraw) as Hsteps.
  destruct (turtle_loop_ok (calc_rot_matrix (radians theta))
              (calc_rot_matrix (fopp (radians theta))) (chars states) s0
              (count "F" states + 1)) as (s_end & Hrun & Hwf_end & _ & Hlow);
    [done | lia |].
  exists s0, (points s_end).1, (points s_end).2. split; [done|]. split.
  { unfold generate_points. rewrite Hinit. cbn [mbind result_bind].
    unfold turtle_run. rewrite Hrun. cbn [mbind result_bind].
    by destruct (points s_end). }
  destruct Hwf_end as (Hl0 & Hl1 & _). split; [done|]. split; [done|].
  destruct (Hlow 0) as [-> ->]; [lia|]. split; [done|]. split; [done|].
  intros pre post ->.
  destruct (turtle_run_split theta pre post s0 (count "F" (pre ++ "F" ++ post) + 1))
    as (s & s_end' & x0 & y0 & Hpre & Hrun' & _ & Hidx_s & _ & Hx & Hy & Hx' & Hy');
    [done | lia |].
  unfold turtle_run in Hrun'. rewrite Hrun in Hrun'. simplify_eq.
  apply drawing_alphabet_app in Hdraw as [Hdraw_pre _].
  rewrite (forward_steps_drawing pre Hdraw_pre), Hidx in Hidx_s.
  rewrite Hidx_s in Hx, Hy, Hx', Hy'.
  replace (1 + count "F" pre - 1) with (count "F" pre) in * by lia.
  replace (1 + count "F" pre) with (count "F" pre + 1) in * by lia.
  exists s, x0, y0. done.
Qed.
End TurtlePolyline.

(** ** Runs on concrete inputs *)

(** The dragon's first draw, 0.1, is above the sentinel only: point 1 is
    the image of the origin under the second map, [(e[1], f[1])] in
    binary32. *)
Example dragon_first_point :
  match @ifs Float.arith Dragon.p Dragon.a Dragon.b Dragon.c Dragon.d Dragon.e
          Dragon.f 1 Dragon.draws with
  | Ok (x, y, _) => Some (x, y)
  | Raise _ => None
  end
  = Some ([S754_zero false; Float.to_float32 (Float.decimal 785360 6)],
          [S754_zero false; Float.to_float32 (Float.decimal 8095795 6)]).
Proof. vm_compute. reflexivity. Qed.

(** A single constant map sends every point after the first to (5, 5). *)
Example constant_map_orbit :
  match @ifs Float.arith [Float.of_Z (-1)] [Float.of_Z 0] [Float.of_Z 0]
          [Float.of_Z 0] [Float.of_Z 0] [Float.of_Z 5] [Float.of_Z 5]
          3 Dragon.draws with
  | Ok (x, y, _) => Some (x, y)
  | Raise _ => None
  end
  = Some ([Float.of_Z 0; Float.of_Z 5; Float.of_Z 5; Float.of_Z 5],
          [Float.of_Z 0; Float.of_Z 5; Float.of_Z 5; Float.of_Z 5]).
Proof. vm_compute. reflexivity. Qed.

(** Parameter arrays shorter than [p] raise [IndexError] at the first
    match. *)
Example short_parameters :
  match @ifs Float.arith Dragon.p [] [] [] [] [] [] 1 Dragon.draws with
  | Ok _ => None
  | Raise err => Some err
  end = Some IndexError.
Proof. vm_compute. reflexivity. Qed.

(** [heighway_dragon(1)]: two passes over [FX], then cleaning. *)
Example heighway_dragon_pattern :
  generate_pattern {[ "X" := "X+YF+"; "Y" := "-FX-Y" ]}%string 1 "FX"
  = "F+F++-F-F+"%string.
Proof. vm_compute. reflexivity. Qed.

(** * The specification's claims *)

Section OrbitClaims.
Context {A : Arith}.

(** C1: for every iteration count [lvl >= 0], parameter arrays of equal
    length whose last threshold is the sentinel -1.0, and draws from
    [0, 1), [ifs] returns arrays in which, at each step [i] from 1 to
    [lvl], point [i] is the affine image of point [i - 1] under the first
    map in list order whose threshold is strictly below the [i]-th draw:
    [x' = a x + b y + e], [y' = c x + d y + f].  Later maps whose
    threshold is also below the draw are not applied.  (The thresholds
    need not be descending for this.) *)
Theorem ifs_applies_first_match (p a b c d e f : list F) (lvl : Z) (g : Rng) :
  (0 <= lvl)%Z ->
  same_length p a b c d e f ->
  last p = Some (fopp fone) ->
  (forall n, unit_draw (g n)) ->
  exists xs ys g',
    ifs p a b c d e f lvl g = Ok (xs, ys, g') /\
    forall i, 1 <= i <= Z.to_nat lvl ->
      exists j x0 y0 x1 y1,
        first_match p (g (i - 1)) j /\
        xs !! (i - 1) = Some x0 /\ ys !! (i - 1) = Some y0 /\
        xs !! i = Some x1 /\ ys !! i = Some y1 /\
        affine_image a b c d e f j (x0, y0) (x1, y1).
Proof.
  intros Hlvl Hlen Hlast Hdraws.
  destruct (ifs_run p a b c d e f lvl g Hlvl Hlen)
    as (xs & ys & g' & Hrun & _ & _ & _ & _ & _ & Hsteps).
  exists xs, ys, g'. split; [exact Hrun|].
  intros i Hi. destruct (Hsteps i Hi) as [Hstep | [Hno _]]; [exact Hstep|].
  destruct (sentinel_matches p (g (i - 1)) Hlast (Hdraws _) Hno).
Qed.

(** C8: when the last threshold is the sentinel -1.0, the scan of
    [ifs] over the maps selects exactly one map for a draw [temp] from
    [0, 1): there is one first match [j], the scan writes slot [i] with
    the image under map [j], and the case in which no threshold is below
    the draw, which would leave slot [i] unwritten, does not occur. *)
Theorem ifs_scan_selects_one (p a b c d e f x y : list F) (temp : F) (i : nat) :
  same_length p a b c d e f ->
  last p = Some (fopp fone) ->
  unit_draw temp ->
  1 <= i -> i < length x -> length y = length x ->
  ~ no_match p temp /\
  exists j x0 y0 x1 y1,
    first_match p temp j /\
    (forall j', first_match p temp j' -> j' = j) /\
    x !! (i - 1) = Some x0 /\ y !! (i - 1) = Some y0 /\
    affine_image a b c d e f j (x0, y0) (x1, y1) /\
    ifs_scan p a b c d e f temp i (range 0 (Z.of_nat (length p))) (x, y)
      = Ok (<[i := x1]> x, <[i := y1]> y).
Proof.
  intros Hlen Hlast Hdraw Hi Hx Hy.
  pose proof (sentinel_matches p temp Hlast Hdraw) as Hsome.
  split; [exact Hsome|].
  destruct (lookup_lt_is_Some_2 x (i - 1)) as [x0 Hx0]; [lia|].
  destruct (lookup_lt_is_Some_2 y (i - 1)) as [y0 Hy0]; [lia|].
  unfold range. change (Z.to_nat 0) with 0.
  replace (Z.to_nat (Z.of_nat (length p) - 0)) with (length p) by lia.
  destruct (ifs_scan_from p a b c d e f Hlen temp i x y x0 y0 (length p) 0)
    as [(j & x1 & y1 & Hj & Himg & Hscan) | [Hno _]];
    [lia.. | done | done | intros; lia | | done].
  exists j, x0, y0, x1, y1. repeat split; try apply Hj; try done.
  intros j' [(pj' & Hpj' & Hgt') Hbefore'].
  destruct Hj as [(pj & Hpj & Hgt) Hbefore].
  destruct (Nat.lt_trichotomy j' j) as [Hlt | [Heq | Hlt]]; [|done|].
  - rewrite (Hbefore j' pj' Hlt Hpj') in Hgt'. done.
  - rewrite (Hbefore' j pj Hlt Hpj) in Hgt. done.
Qed.
End OrbitClaims.

(** Witness of C1: the dragon's maps, three steps. *)
Lemma ifs_applies_first_match_witness :
  exists xs ys g',
    @ifs Float.arith Dragon.p Dragon.a Dragon.b Dragon.c Dragon.d Dragon.e
      Dragon.f 3 Dragon.draws = Ok (xs, ys, g') /\
    forall i, 1 <= i <= Z.to_nat 3 ->
      exists j x0 y0 x1 y1,
        @first_match Float.arith Dragon.p (Dragon.draws (i - 1)) j /\
        xs !! (i - 1) = Some x0 /\ ys !! (i - 1) = Some y0 /\
        xs !! i = Some x1 /\ ys !! i = Some y1 /\
        @affine_image Float.arith Dragon.a Dragon.b Dragon.c Dragon.d Dragon.e
          Dragon.f j (x0, y0) (x1, y1).
Proof.
  apply (@ifs_applies_first_match Float.arith).
  - lia.
  - repeat split.
  - reflexivity.
  - intros n. unfold Dragon.draws. destruct (Nat.even n); split; reflexivity.
Defined.

(** Witness of C8: the dragon's maps, the draw 0.9, slot 1 of two arrays
    of three zeros. *)
Lemma ifs_scan_selects_one_witness :
  ~ @no_match Float.arith Dragon.p (Float.decimal 9 1) /\
  exists j x0 y0 x1 y1,
    @first_match Float.arith Dragon.p (Float.decimal 9 1) j /\
    (forall j', @first_match Float.arith Dragon.p (Float.decimal 9 1) j' -> j' = j) /\
    replicate 3 (@fzero Float.arith) !! (1 - 1) = Some x0 /\
    replicate 3 (@fzero Float.arith) !! (1 - 1) = Some y0 /\
    @affine_image Float.arith Dragon.a Dragon.b Dragon.c Dragon.d Dragon.e
      Dragon.f j (x0, y0) (x1, y1) /\
    @ifs_scan Float.arith Dragon.p Dragon.a Dragon.b Dragon.c Dragon.d Dragon.e
      Dragon.f (Float.decimal 9 1) 1 (range 0 (Z.of_nat (length Dragon.p)))
      (replicate 3 fzero, replicate 3 fzero)
    = Ok (<[1 := x1]> (replicate 3 fzero), <[1 := y1]> (replicate 3 fzero)).
Proof.
  apply (@ifs_scan_selects_one Float.arith).
  - repeat split.
  - reflexivity.
  - split; reflexivity.
  - lia.
  - simpl. lia.
  - reflexivity.
Defined.

(** C2: for every axiom and rule set, [generate_pattern]'s rewriting loop
    with iteration count [N] performs exactly [N + 1] passes, each of which
    is a simultaneous pass over the previous pass's output: every symbol is
    replaced by its rule's text, a symbol without a rule by itself, and the
    text produced in a pass is not rewritten in that pass. *)
Theorem rewrite_states_simultaneous_passes
    (rules : gmap string string) (N : nat) (axiom : string) :
  rewrite_states rules (Z.of_nat N) axiom
  = Nat.iter (S N) (simultaneous_pass rules) axiom.
Proof.
  rewrite rewrite_states_passes.
  by replace (Z.to_nat (Z.of_nat N + 1)) with (S N) by lia.
Qed.

(** C5, as stated, fails: with iteration count 0, axiom [F] and the rule
    [F -> F+F-F] the rewriting loop does not yield the two-pass string. *)
Lemma rewrite_states_zero_not_two_passes :
  rewrite_states {[ "F" := "F+F-F" ]}%string 0 "F"
  <> "F+F-F+F+F-F-F+F-F"%string.
Proof. vm_compute. discriminate. Qed.

(** C5, amended: with iteration count 0, axiom [F] and the rule
    [F -> F+F-F] the rewriting loop performs one pass and yields [F+F-F];
    the string [F+F-F+F+F-F-F+F-F] is the result of the two passes of
    iteration count 1. *)
Theorem rewrite_states_tetra_dragon :
  rewrite_states {[ "F" := "F+F-F" ]}%string 0 "F"
  = simultaneous_pass {[ "F" := "F+F-F" ]}%string "F" /\
  rewrite_states {[ "F" := "F+F-F" ]}%string 0 "F" = "F+F-F"%string /\
  rewrite_states {[ "F" := "F+F-F" ]}%string 1 "F" = "F+F-F+F+F-F-F+F-F"%string.
Proof. repeat split; vm_compute; reflexivity. Qed.

(** C4: for every iteration count [lvl >= 0], [clifford_attractor] returns
    arrays with [x[0] = y[0] = 0] and, for every [i] from 1 to [lvl],
    [x[i] = sin(a y[i-1]) + c cos(a x[i-1])] and
    [y[i] = sin(b x[i-1]) + d cos(b y[i-1])].  It takes no random draw: its
    output is the one pair of arrays of that length that satisfies the
    recurrence, so it is determined by [(lvl, a, b, c, d)]. *)
Theorem clifford_attractor_recurrence {A : Arith} {T : Trig A}
    (lvl : Z) (a b c d : F) :
  (0 <= lvl)%Z ->
  exists xs ys,
    clifford_attractor lvl a b c d = Ok (xs, ys) /\
    clifford_orbit a b c d (Z.to_nat lvl) xs ys /\
    forall xs' ys',
      length xs' = Z.to_nat lvl + 1 -> length ys' = Z.to_nat lvl + 1 ->
      clifford_orbit a b c d (Z.to_nat lvl) xs' ys' ->
      xs' = xs /\ ys' = ys.
Proof.
  intros Hlvl.
  destruct (clifford_run a b c d lvl Hlvl) as (xs & ys & Hrun & Hxs & Hys & Horbit).
  exists xs, ys. split; [exact Hrun|]. split; [exact Horbit|].
  intros xs' ys' Hxs' Hys' Horbit'.
  by apply (clifford_orbit_unique a b c d (Z.to_nat lvl)).
Qed.

(** Witness of C4: the parameters of the source's main block, over the
    real numbers, two steps. *)
Lemma clifford_attractor_recurrence_witness :
  exists xs ys,
    @clifford_attractor Real.arith Real.trig 2 1.7%R 1.7%R 0.06%R 1.2%R
      = Ok (xs, ys) /\
    @clifford_orbit Real.arith Real.trig 1.7%R 1.7%R 0.06%R 1.2%R
      (Z.to_nat 2) xs ys /\
    forall xs' ys',
      length xs' = Z.to_nat 2 + 1 -> length ys' = Z.to_nat 2 + 1 ->
      @clifford_orbit Real.arith Real.trig 1.7%R 1.7%R 0.06%R 1.2%R
        (Z.to_nat 2) xs' ys' ->
      xs' = xs /\ ys' = ys.
Proof. apply (@clifford_attractor_recurrence Real.arith Real.trig). lia. Defined.

(** C6: for every iteration count [lvl >= 0] and parameter arrays of equal
    length, [ifs] and [clifford_attractor] both return [x] and [y] arrays
    of length [lvl + 1] whose point 0 is [(0, 0)], whatever the map
    parameters; for [lvl = 0] the result is the single point [(0, 0)]. *)
Theorem generators_length_and_origin {A : Arith} {T : Trig A}
    (p a b c d e f : list F) (g : Rng) (ca cb cc cd : F) (lvl : Z) :
  (0 <= lvl)%Z ->
  same_length p a b c d e f ->
  (exists xs ys g',
      ifs p a b c d e f lvl g = Ok (xs, ys, g') /\
      length xs = Z.to_nat lvl + 1 /\ length ys = Z.to_nat lvl + 1 /\
      xs !! 0 = Some fzero /\ ys !! 0 = Some fzero) /\
  (exists xs ys,
      clifford_attractor lvl ca cb cc cd = Ok (xs, ys) /\
      length xs = Z.to_nat lvl + 1 /\ length ys = Z.to_nat lvl + 1 /\
      xs !! 0 = Some fzero /\ ys !! 0 = Some fzero) /\
  ifs p a b c d e f 0 g = Ok ([fzero], [fzero], g) /\
  clifford_attractor 0 ca cb cc cd = Ok ([fzero], [fzero]).
Proof.
  intros Hlvl Hlen. split; [|split; [|split; reflexivity]].
  - destruct (ifs_run p a b c d e f lvl g Hlvl Hlen)
      as (xs & ys & g' & Hrun & Hxs & Hys & Hx0 & Hy0 & _).
    exists xs, ys, g'. done.
  - destruct (clifford_run ca cb cc cd lvl Hlvl)
      as (xs & ys & Hrun & Hxs & Hys & Hx0 & Hy0 & _).
    exists xs, ys. done.
Qed.

(** Witness of C6: the dragon's maps and four steps. *)
Lemma generators_length_and_origin_witness :
  (exists xs ys g',
      @ifs Real.arith [0.212527; -1]%R [0.824074; 0.088272]%R
        [0.281428; 0.520988]%R [-0.212346; -0.463889]%R
        [0.864198; -0.377778]%R [-1.882290; 0.785360]%R
        [-0.110607; 8.095795]%R 4 (fun _ => 0.5%R) = Ok (xs, ys, g') /\
      length xs = Z.to_nat 4 + 1 /\ length ys = Z.to_nat 4 + 1 /\
      xs !! 0 = Some 0%R /\ ys !! 0 = Some 0%R) /\
  (exists xs ys,
      @clifford_attractor Real.arith Real.trig 4 1.7%R 1.7%R 0.06%R 1.2%R
        = Ok (xs, ys) /\
      length xs = Z.to_nat 4 + 1 /\ length ys = Z.to_nat 4 + 1 /\
      xs !! 0 = Some 0%R /\ ys !! 0 = Some 0%R) /\
  @ifs Real.arith [0.212527; -1]%R [0.824074; 0.088272]%R
    [0.281428; 0.520988]%R [-0.212346; -0.463889]%R
    [0.864198; -0.377778]%R [-1.882290; 0.785360]%R
    [-0.110607; 8.095795]%R 0 (fun _ => 0.5%R)
    = Ok ([0%R], [0%R], fun _ => 0.5%R) /\
  @clifford_attractor Real.arith Real.trig 0 1.7%R 1.7%R 0.06%R 1.2%R
    = Ok ([0%R], [0%R]).
Proof.
  apply (@generators_length_and_origin Real.arith Real.trig); [lia | repeat split].
Defined.

(** C9, as stated, fails: [ifs] with iteration count -1 returns (empty)
    arrays instead of failing, [generate_pattern] with iteration count -1
    returns the axiom instead of failing, and with iteration count 0 it
    returns the axiom rewritten once, not the axiom. *)
Lemma negative_count_not_rejected :
  @ifs Float.arith Dragon.p Dragon.a Dragon.b Dragon.c Dragon.d Dragon.e
    Dragon.f (-1) Dragon.draws = Ok ([], [], Dragon.draws) /\
  generate_pattern {[ "F" := "F+F-F" ]}%string (-1) "F" = "F"%string /\
  generate_pattern {[ "F" := "F+F-F" ]}%string 0 "F" <> "F"%string.
Proof. split; [reflexivity|]. split; [reflexivity|]. vm_compute. discriminate. Qed.

(** C9, amended: neither generator checks the sign of the iteration
    count.  For a negative count, [ifs] fails only through the allocation
    of an array of negative length, that is with [ValueError] for counts
    below -1, and returns empty arrays for -1; [generate_pattern] does not
    fail, performs no pass and returns the cleaned axiom.  The count 0 is
    valid: [ifs] returns the single point [(0, 0)], and [generate_pattern]
    the axiom after one pass, cleaned. *)
Theorem negative_iteration_count {A : Arith}
    (p a b c d e f : list F) (g : Rng)
    (rules : gmap string string) (axiom : string) (lvl : Z) :
  (lvl < 0)%Z ->
  ifs p a b c d e f lvl g
    = (if (lvl =? -1)%Z then Ok ([], [], g) else Raise ValueError) /\
  generate_pattern rules lvl axiom = clean_states axiom /\
  ifs p a b c d e f 0 g = Ok ([fzero], [fzero], g) /\
  generate_pattern rules 0 axiom = clean_states (simultaneous_pass rules axiom).
Proof.
  intros Hlvl. split; [|split; [|split]].
  - destruct (Z.eqb_spec lvl (-1)) as [->|Hne]; [reflexivity|].
    unfold ifs. rewrite np_zeros_negative by lia. reflexivity.
  - unfold generate_pattern. rewrite rewrite_states_passes.
    by replace (Z.to_nat (lvl + 1)) with 0 by lia.
  - reflexivity.
  - unfold generate_pattern. by rewrite rewrite_states_passes.
Qed.

(** Witness of the amended C9: the dragon's maps, the tetra dragon's rule,
    and the count -3. *)
Lemma negative_iteration_count_witness :
  @ifs Float.arith Dragon.p Dragon.a Dragon.b Dragon.c Dragon.d Dragon.e
    Dragon.f (-3) Dragon.draws
    = (if (-3 =? -1)%Z then Ok ([], [], Dragon.draws) else Raise ValueError) /\
  generate_pattern {[ "F" := "F+F-F" ]}%string (-3) "F" = clean_states "F" /\
  @ifs Float.arith Dragon.p Dragon.a Dragon.b Dragon.c Dragon.d Dragon.e
    Dragon.f 0 Dragon.draws = Ok ([fzero], [fzero], Dragon.draws) /\
  generate_pattern {[ "F" := "F+F-F" ]}%string 0 "F"
    = clean_states (simultaneous_pass {[ "F" := "F+F-F" ]}%string "F").
Proof. apply (@negative_iteration_count Float.arith). lia. Defined.

(** C10: [generate_points] allocates [count('F') + 1] columns and steps
    forward, writing a column, on every character other than [+] and [-];
    so for every string with at least one character outside [F], [+], [-]
    it writes past the last column and fails with [IndexError]. *)
Theorem generate_points_index_error {A : Arith} {T : Trig A}
    (alpha theta length : F) (states : string) :
  (exists st, st ∈ chars states /\ st <> "F" /\ st <> "+" /\ st <> "-")%string ->
  (exists s0,
      turtle_init alpha length states = Ok s0 /\
      turtle_wf (count "F" states + 1) s0 /\ point_index s0 = 1) /\
  count "F" states + 1 < 1 + forward_steps (chars states) /\
  generate_points alpha theta length states = Raise IndexError.
Proof.
  intros Hother. split; [|split].
  - destruct (turtle_init_ok alpha length states) as (s0 & Hinit & Hwf & Hidx & _).
    exists s0. done.
  - apply forward_steps_other in Hother. fold (count "F" states) in Hother. lia.
  - by apply generate_points_overflow.
Qed.

(** Witness of C10: the Heighway dragon's axiom [FX], not cleaned. *)
Lemma generate_points_index_error_witness :
  (exists s0,
      @turtle_init Real.arith Real.trig 0%R 1%R "FX" = Ok s0 /\
      turtle_wf (count "F" "FX" + 1) s0 /\ point_index s0 = 1) /\
  count "F" "FX" + 1 < 1 + forward_steps (chars "FX") /\
  @generate_points Real.arith Real.trig 0%R 90%R 1%R "FX" = Raise IndexError.
Proof.
  apply (@generate_points_index_error Real.arith Real.trig).
  exists "X"%string. split; [|done]. apply list_elem_of_In. simpl. auto.
Defined.







(** * Further properties of the code *)

(** ** More on the L-system rewriter *)

Lemma append_nil_l (s : string) : (EmptyString ++ s)%string = s.
Proof. reflexivity. Qed.

Lemma chars_one_char (s : string) : Forall one_char (chars s).
Proof.
  induction s as [|ch s IH]; [constructor|].
  simpl. constructor; [by exists ch | done].
Qed.

Lemma chars_join (parts : list string) :
  Forall one_char parts -> chars (join parts) = parts.
Proof.
  induction 1 as [|st parts [ch ->] _ IH]; [done|].
  unfold join. cbn [foldr]. rewrite append_cons, append_nil_l. cbn [chars].
  change (foldr String.append EmptyString parts) with (join parts).
  by rewrite IH.
Qed.

Lemma join_chars (s : string) : join (chars s) = s.
Proof.
  induction s as [|ch s IH]; [done|].
  cbn [chars]. unfold join. cbn [foldr]. rewrite append_cons, append_nil_l.
  change (foldr String.append EmptyString (chars s)) with (join (chars s)).
  by rewrite IH.
Qed.

Lemma chars_clean_states (states : string) :
  chars (clean_states states)
  = filter (fun symbol => symbol ∈ chars drawing_rules) (chars states).
Proof.
  unfold clean_states. apply chars_join.
  induction (chars_one_char states) as [|st cs Hst _ IH]; [constructor|].
  rewrite filter_cons. case_decide; [constructor|]; done.
Qed.

Lemma drawing_rules_symbol (st : string) :
  st ∈ chars drawing_rules <-> st = "F"%string \/ st = "+"%string \/ st = "-"%string.
Proof.
  unfold drawing_rules. cbn [chars]. rewrite !elem_of_cons, elem_of_nil. tauto.
Qed.

Lemma clean_states_drawing (states : string) :
  drawing_alphabet (clean_states states).
Proof.
  unfold drawing_alphabet. rewrite chars_clean_states.
  apply Forall_forall. intros st Hst.
  apply list_elem_of_filter in Hst as [Hst _]. by apply drawing_rules_symbol.
Qed.

Lemma clean_states_fixed (states : string) :
  drawing_alphabet states -> clean_states states = states.
Proof.
  unfold drawing_alphabet, clean_states. intros Hdraw.
  rewrite <- (join_chars states) at 2. f_equal.
  induction Hdraw as [|st cs Hst _ IH]; [done|].
  rewrite filter_cons_True by (by apply drawing_rules_symbol). by rewrite IH.
Qed.

Lemma count_app (symbol s1 s2 : string) :
  count symbol (s1 ++ s2) = count symbol s1 + count symbol s2.
Proof. unfold count. by rewrite chars_app, filter_app, length_app. Qed.

Lemma count_clean_states (states : string) :
  count "F" (clean_states states) = count "F" states.
Proof.
  unfold count. rewrite chars_clean_states.
  induction (chars states) as [|st cs IH]; [done|].
  destruct (decide (st = "F"%string)) as [->|HF].
  - rewrite (filter_cons_True (fun symbol => symbol ∈ chars drawing_rules));
      [|apply drawing_rules_symbol; auto].
    rewrite !filter_cons_True by done. cbn [length]. by rewrite IH.
  - rewrite (filter_cons_False (fun st => st = "F"%string) st cs) by done.
    rewrite (filter_cons (fun symbol => symbol ∈ chars drawing_rules)).
    case_decide; [|done]. by rewrite filter_cons_False.
Qed.

(** X1: whatever the rules, the axiom and the iteration count, the string
    returned by [generate_pattern] holds only the symbols [F], [+] and
    [-]. *)
Theorem generate_pattern_drawing_alphabet
    (rules : gmap string string) (lvl : Z) (axiom : string) :
  drawing_alphabet (generate_pattern rules lvl axiom).
Proof. apply clean_states_drawing. Qed.

(** X2: the cleaning step of [generate_pattern] is idempotent: cleaning a
    cleaned string changes nothing. *)
Theorem clean_states_idempotent (states : string) :
  clean_states (clean_states states) = clean_states states.
Proof. apply clean_states_fixed, clean_states_drawing. Qed.

Section RewritingMore.
Variable rules : gmap string string.

Lemma iter_pass_app (n : nat) (s1 s2 : string) :
  Nat.iter n (simultaneous_pass rules) (s1 ++ s2)%string
  = (Nat.iter n (simultaneous_pass rules) s1
     ++ Nat.iter n (simultaneous_pass rules) s2)%string.
Proof.
  induction n as [|n IH]; [done|].
  rewrite !Nat.iter_succ. rewrite IH. apply simultaneous_pass_app.
Qed.

Lemma simultaneous_pass_no_rule (s : string) :
  (forall st, st ∈ chars s -> rules !! st = None) ->
  simultaneous_pass rules s = s.
Proof.
  induction s as [|ch s IH]; intros Hno; [done|].
  cbn [simultaneous_pass]. rewrite (Hno (String ch EmptyString)).
  - rewrite IH; [done|]. intros st Hst. apply Hno. cbn [chars]. by right.
  - cbn [chars]. by left.
Qed.

Lemma simultaneous_pass_insert_long (key text s : string) :
  String.length key <> 1 ->
  simultaneous_pass (<[key := text]> rules) s = simultaneous_pass rules s.
Proof.
  intros Hkey. induction s as [|ch s IH]; [done|].
  cbn [simultaneous_pass]. rewrite IH, lookup_insert_ne; [done|].
  intros ->. by apply Hkey.
Qed.
End RewritingMore.

(** X3: rewriting is context free: the rewriting loop of
    [generate_pattern] on a concatenation is the concatenation of its
    results on the parts, for every iteration count. *)
Theorem rewrite_states_app
    (rules : gmap string string) (lvl : Z) (s1 s2 : string) :
  rewrite_states rules lvl (s1 ++ s2)%string
  = (rewrite_states rules lvl s1 ++ rewrite_states rules lvl s2)%string.
Proof. rewrite !rewrite_states_passes. apply iter_pass_app. Qed.

(** X4: a string none of whose symbols has a rule is left unchanged by
    the rewriting loop, for every iteration count ([rewrite_rules.get]
    falls back to the symbol itself). *)
Theorem rewrite_states_no_rule
    (rules : gmap string string) (lvl : Z) (axiom : string) :
  (forall st, st ∈ chars axiom -> rules !! st = None) ->
  rewrite_states rules lvl axiom = axiom.
Proof.
  intros Hno. rewrite rewrite_states_passes.
  induction (Z.to_nat (lvl + 1)) as [|n IH]; [done|].
  rewrite !Nat.iter_succ. rewrite IH. by apply simultaneous_pass_no_rule.
Qed.

(** Witness of X4: a drawing string and a rule for [X]. *)
Lemma rewrite_states_no_rule_witness :
  rewrite_states {[ "X" := "X+YF+" ]}%string 3 "F+F-F" = "F+F-F"%string.
Proof.
  apply rewrite_states_no_rule. intros st Hst.
  apply list_elem_of_In in Hst. simpl in Hst.
  destruct Hst as [<-|[<-|[<-|[<-|[<-|[]]]]]]; reflexivity.
Defined.

(** X5: a rule whose key is not a single character is never applied:
    adding it to the rules changes nothing (the loop looks up one character
    at a time). *)
Theorem rewrite_states_long_key
    (rules : gmap string string) (key text : string) (lvl : Z) (axiom : string) :
  String.length key <> 1 ->
  rewrite_states (<[key := text]> rules) lvl axiom = rewrite_states rules lvl axiom.
Proof.
  intros Hkey. rewrite !rewrite_states_passes.
  induction (Z.to_nat (lvl + 1)) as [|n IH]; [done|].
  rewrite !Nat.iter_succ. rewrite IH. by apply simultaneous_pass_insert_long.
Qed.

(** Witness of X5: a rule with the two-character key [FX]. *)
Lemma rewrite_states_long_key_witness :
  rewrite_states (<[ "FX" := "F+F" ]> {[ "F" := "F+F-F" ]})%string 1 "FX"
  = rewrite_states {[ "F" := "F+F-F" ]}%string 1 "FX".
Proof. apply rewrite_states_long_key. simpl. lia. Defined.

Lemma count_pass_single (text s : string) :
  count "F" (simultaneous_pass {[ "F" := text ]}%string s)
  = count "F" s * count "F" text.
Proof.
  induction s as [|ch s IH]; [done|].
  cbn [simultaneous_pass]. rewrite count_app, IH, count_cons.
  destruct (decide (String ch EmptyString = "F"%string)) as [->|HF].
  - rewrite lookup_singleton_eq. lia.
  - rewrite lookup_singleton_ne by done.
    rewrite count_cons, decide_False by done. change (count "F" "") with 0. lia.
Qed.


(** ** More on the turtle *)

Lemma not_drawing_alphabet (states : string) :
  ~ drawing_alphabet states ->
  (exists st, st ∈ chars states /\ st <> "F" /\ st <> "+" /\ st <> "-")%string.
Proof.
  unfold drawing_alphabet. intros Hnot.
  apply not_Forall_Exists in Hnot; [|intros st; apply _].
  apply Exists_exists in Hnot as (st & Hin & Hst).
  exists st. split; [done|]. repeat split; intros ->; apply Hst; auto.
Qed.

(** X7: [generate_points] returns points exactly for the strings over
    [F], [+] and [-]; on any other string it raises. *)
Theorem generate_points_ok_iff {A : Arith} {T : Trig A}
    (alpha theta length : F) (states : string) :
  (exists pts, generate_points alpha theta length states = Ok pts)
  <-> drawing_alphabet states.
Proof.
  split.
  - intros [pts Hok].
    destruct (decide (drawing_alphabet states)) as [Hdraw|Hnot]; [done|].
    apply not_drawing_alphabet in Hnot.
    rewrite (generate_points_overflow alpha theta length states Hnot) in Hok. done.
  - intros Hdraw.
    destruct (generate_points_polyline alpha theta length states Hdraw)
      as (_ & px & py & _ & Hok & _).
    by exists (px, py).
Qed.

(** X9: a string of turns only (the empty string included) yields the
    single point at the origin. *)
Theorem generate_points_no_forward {A : Arith} {T : Trig A}
    (alpha theta length : F) (states : string) :
  drawing_alphabet states ->
  count "F" states = 0 ->
  generate_points alpha theta length states = Ok ([fzero], [fzero]).
Proof.
  intros Hdraw Hcount.
  destruct (generate_points_polyline alpha theta length states Hdraw)
    as (_ & px & py & _ & Hok & Hpx & Hpy & Hx0 & Hy0 & _).
  rewrite Hok, Hcount in *.
  destruct px as [|x [|? ?]]; simpl in Hpx; try lia.
  destruct py as [|y [|? ?]]; simpl in Hpy; try lia.
  simpl in Hx0, Hy0. by simplify_eq.
Qed.

(** Witness of X9: three turns. *)
Lemma generate_points_no_forward_witness :
  @generate_points Real.arith Real.trig 0%R 90%R 1%R "+-+"
  = Ok ([0%R], [0%R]).
Proof.
  apply (@generate_points_no_forward Real.arith Real.trig); [|reflexivity].
  unfold drawing_alphabet. simpl.
  repeat first [apply List.Forall_nil | apply List.Forall_cons; [auto|]].
Defined.

(** ** More on the orbit generators *)

Section OrbitMore.
Context {A : Arith}.

Lemma first_match_unique (p : list F) (u : F) (j j' : nat) :
  first_match p u j -> first_match p u j' -> j' = j.
Proof.
  intros [(pj & Hpj & Hgt) Hbefore] [(pj' & Hpj' & Hgt') Hbefore'].
  destruct (Nat.lt_trichotomy j' j) as [Hlt | [Heq | Hlt]]; [|done|].
  - rewrite (Hbefore j' pj' Hlt Hpj') in Hgt'. done.
  - rewrite (Hbefore' j pj Hlt Hpj) in Hgt. done.
Qed.

Lemma first_match_not_no_match (p : list F) (u : F) (j : nat) :
  first_match p u j -> no_match p u -> False.
Proof.
  intros [(pj & Hpj & Hgt) _] Hno. rewrite (Hno j pj Hpj) in Hgt. done.
Qed.

Lemma affine_image_unique (a b c d e f : list F) (j : nat) (xy xy1 xy2 : F * F) :
  affine_image a b c d e f j xy xy1 -> affine_image a b c d e f j xy xy2 ->
  xy1 = xy2.
Proof.
  intros (aj & bj & cj & dj & ej & fj & Ha & Hb & Hc & Hd & He & Hf & H1 & H2)
         (aj' & bj' & cj' & dj' & ej' & fj' & Ha' & Hb' & Hc' & Hd' & He' & Hf' & H1' & H2').
  simplify_eq. destruct xy1, xy2. simpl in *. congruence.
Qed.

Lemma ifs_scan_no_match (p a b c d e f : list F) (temp : F) (i : nat)
    (xy : list F * list F) (m k : nat) :
  k + m = length p -> no_match p temp ->
  ifs_scan p a b c d e f temp i (seq k m) xy = Ok xy.
Proof.
  intros Hkm Hno. revert k Hkm. induction m as [|m IH]; intros k Hkm; [done|].
  destruct (lookup_lt_is_Some_2 p k) as [pk Hpk]; [lia|].
  cbn [seq ifs_scan]. rewrite (getitem_ok _ _ _ Hpk). cbn [mbind result_bind].
  rewrite (Hno k pk Hpk). apply IH. lia.
Qed.

Lemma ifs_loop_no_match (p a b c d e f : list F) (m k : nat)
    (x y : list F) (g : Rng) :
  (forall n, no_match p (g n)) ->
  exists g',
    for_in (seq k m) (ifs_body p a b c d e f (seq 0 (length p))) (x, y, g)
    = Ok (x, y, g').
Proof.
  revert k g. induction m as [|m IH]; intros k g Hno; [by exists g|].
  simpl. rewrite ifs_scan_no_match by (done || lia). simpl.
  apply IH. intros n. apply Hno.
Qed.

(** X12: for an iteration count [lvl >= 0] and parameter arrays of equal
    length, [ifs] takes exactly [lvl] draws from the generator: the stream
    it leaves is the given one without its first [lvl] draws. *)
Theorem ifs_consumes_lvl_draws (p a b c d e f : list F) (lvl : Z) (g : Rng) :
  (0 <= lvl)%Z ->
  same_length p a b c d e f ->
  exists xs ys g',
    ifs p a b c d e f lvl g = Ok (xs, ys, g') /\
    forall n, g' n = g (Z.to_nat lvl + n).
Proof.
  intros Hlvl Hlen.
  destruct (ifs_run p a b c d e f lvl g Hlvl Hlen)
    as (xs & ys & g' & Hrun & _ & _ & _ & _ & Hg' & _).
  by exists xs, ys, g'.
Qed.

(** X13: for non-empty parameter arrays of equal length, when no
    threshold is below any draw (no sentinel, and draws that are too
    small), [ifs] writes nothing and returns arrays of zeros. *)
Theorem ifs_without_match (p a b c d e f : list F) (lvl : Z) (g : Rng) :
  (0 <= lvl)%Z ->
  same_length p a b c d e f ->
  p <> [] ->
  (forall n, no_match p (g n)) ->
  exists g',
    ifs p a b c d e f lvl g
    = Ok (replicate (Z.to_nat lvl + 1) fzero, replicate (Z.to_nat lvl + 1) fzero, g').
Proof.
  intros Hlvl _ _ Hno. unfold ifs. rewrite np_zeros_ok by lia. cbn [mbind result_bind].
  unfold range. change (Z.to_nat 0) with 0.
  replace (Z.to_nat (Z.of_nat (length p) - 0)) with (length p) by lia.
  replace (Z.to_nat (lvl + 1)) with (Z.to_nat lvl + 1) by lia.
  by apply ifs_loop_no_match.
Qed.

(** X14: with the same draws, the points [ifs] returns for an iteration
    count are the first points it returns for any larger count. *)
Theorem ifs_prefix (p a b c d e f : list F) (lvl more : Z) (g : Rng) :
  (0 <= lvl)%Z -> (0 <= more)%Z ->
  same_length p a b c d e f ->
  exists xs ys g1 xs' ys' g2,
    ifs p a b c d e f lvl g = Ok (xs, ys, g1) /\
    ifs p a b c d e f (lvl + more) g = Ok (xs', ys', g2) /\
    xs = take (Z.to_nat lvl + 1) xs' /\ ys = take (Z.to_nat lvl + 1) ys'.
Proof.
  intros Hlvl Hmore Hlen.
  destruct (ifs_run p a b c d e f lvl g Hlvl Hlen)
    as (xs & ys & g1 & Hrun & Hxs & Hys & Hx0 & Hy0 & _ & Hsteps).
  destruct (ifs_run p a b c d e f (lvl + more) g ltac:(lia) Hlen)
    as (xs' & ys' & g2 & Hrun' & Hxs' & Hys' & Hx0' & Hy0' & _ & Hsteps').
  exists xs, ys, g1, xs', ys', g2. split; [done|]. split; [done|].
  assert (forall i, i <= Z.to_nat lvl ->
            xs !! i = xs' !! i /\ ys !! i = ys' !! i) as Hsame.
  { induction i as [|i IH]; intros Hi; [by rewrite Hx0, Hy0, Hx0', Hy0'|].
    destruct IH as [IHx IHy]; [lia|].
    destruct (Hsteps (S i)) as
      [(j & x0 & y0 & x1 & y1 & Hj & Hx & Hy & Hx1 & Hy1 & Himg)
      |(Hno & Hx1 & Hy1)]; [lia| |];
    destruct (Hsteps' (S i)) as
      [(j' & x0' & y0' & x1' & y1' & Hj' & Hx' & Hy' & Hx1' & Hy1' & Himg')
      |(Hno' & Hx1' & Hy1')]; try lia.
    - replace (S i - 1) with i in * by lia.
      rewrite (first_match_unique _ _ _ _ Hj Hj') in Himg'.
      assert (x0' = x0) by congruence. assert (y0' = y0) by congruence. subst.
      pose proof (affine_image_unique _ _ _ _ _ _ _ _ _ _ Himg Himg') as Heq.
      simplify_eq. by rewrite Hx1, Hy1, Hx1', Hy1'.
    - destruct (first_match_not_no_match _ _ _ Hj Hno').
    - destruct (first_match_not_no_match _ _ _ Hj' Hno).
    - by rewrite Hx1, Hy1, Hx1', Hy1'. }
  split; apply list_eq; intros i;
    (destruct (decide (i <= Z.to_nat lvl)) as [Hi|Hi];
     [rewrite lookup_take_lt by lia; by apply Hsame
     |rewrite lookup_take_ge by lia; apply lookup_ge_None_2; lia]).
Qed.
End OrbitMore.

(** X15: the points [clifford_attractor] returns for an iteration count
    are the first points it returns for any larger count. *)
Theorem clifford_prefix {A : Arith} {T : Trig A} (lvl more : Z) (a b c d : F) :
  (0 <= lvl)%Z -> (0 <= more)%Z ->
  exists xs ys xs' ys',
    clifford_attractor lvl a b c d = Ok (xs, ys) /\
    clifford_attractor (lvl + more) a b c d = Ok (xs', ys') /\
    xs = take (Z.to_nat lvl + 1) xs' /\ ys = take (Z.to_nat lvl + 1) ys'.
Proof.
  intros Hlvl Hmore.
  destruct (clifford_run a b c d lvl Hlvl) as (xs & ys & Hrun & Hxs & Hys & Horbit).
  destruct (clifford_run a b c d (lvl + more) ltac:(lia))
    as (xs' & ys' & Hrun' & Hxs' & Hys' & Hx0' & Hy0' & Hsteps').
  exists xs, ys, xs', ys'. split; [done|]. split; [done|].
  apply (clifford_orbit_unique a b c d (Z.to_nat lvl));
    rewrite ?length_take; try lia; [|done].
  split; [|split].
  - rewrite lookup_take_lt by lia. done.
  - rewrite lookup_take_lt by lia. done.
  - intros i Hi. destruct (Hsteps' i) as (x0 & y0 & Hx & Hy & Hx1 & Hy1); [lia|].
    exists x0, y0. rewrite !lookup_take_lt by lia. done.
Qed.

Lemma ifs_chaos_game {A : Arith} (p a b c d e f : list F) (lvl : Z) (g : Rng) :
  (0 <= lvl)%Z ->
  same_length p a b c d e f ->
  last p = Some (fopp fone) ->
  (forall n, unit_draw (g n)) ->
  chaos_game p a b c d e f lvl g (ifs p a b c d e f lvl g).
Proof.
  intros Hlvl Hlen Hlast Hdraws.
  destruct (ifs_run p a b c d e f lvl g Hlvl Hlen)
    as (xs & ys & g' & Hrun & Hxs & Hys & _ & _ & _ & Hsteps).
  exists xs, ys, g'. split; [exact Hrun|]. split; [exact Hxs|]. split; [exact Hys|].
  intros i Hi. destruct (Hsteps i Hi) as [Hstep | [Hno _]]; [exact Hstep|].
  destruct (sentinel_matches p (g (i - 1)) Hlast (Hdraws _) Hno).
Qed.

(** Witness of X12: the dragon's maps, three steps. *)
Lemma ifs_consumes_lvl_draws_witness :
  exists xs ys g',
    @ifs Float.arith Dragon.p Dragon.a Dragon.b Dragon.c Dragon.d Dragon.e
      Dragon.f 3 Dragon.draws = Ok (xs, ys, g') /\
    forall n, g' n = Dragon.draws (Z.to_nat 3 + n).
Proof.
  apply (@ifs_consumes_lvl_draws Float.arith); [lia | repeat split].
Defined.

(** Witness of X13: the thresholds 1 and 2, above every draw. *)
Lemma ifs_without_match_witness :
  exists g',
    @ifs Float.arith [Float.of_Z 1; Float.of_Z 2] Dragon.a Dragon.b Dragon.c
      Dragon.d Dragon.e Dragon.f 2 Dragon.draws
    = Ok (replicate (Z.to_nat 2 + 1) fzero, replicate (Z.to_nat 2 + 1) fzero, g').
Proof.
  apply (@ifs_without_match Float.arith); [lia | repeat split | done |].
  intros n k pk Hk. unfold Dragon.draws.
  destruct k as [|[|k]]; simpl in Hk; simplify_eq;
    destruct (Nat.even n); reflexivity.
Defined.

(** Witness of X14: the dragon's maps, two steps and five. *)
Lemma ifs_prefix_witness :
  exists xs ys g1 xs' ys' g2,
    @ifs Float.arith Dragon.p Dragon.a Dragon.b Dragon.c Dragon.d Dragon.e
      Dragon.f 2 Dragon.draws = Ok (xs, ys, g1) /\
    @ifs Float.arith Dragon.p Dragon.a Dragon.b Dragon.c Dragon.d Dragon.e
      Dragon.f (2 + 3) Dragon.draws = Ok (xs', ys', g2) /\
    xs = take (Z.to_nat 2 + 1) xs' /\ ys = take (Z.to_nat 2 + 1) ys'.
Proof.
  apply (@ifs_prefix Float.arith); [lia | lia | repeat split].
Defined.

(** Witness of X15: two steps and five. *)
Lemma clifford_prefix_witness :
  exists xs ys xs' ys',
    @clifford_attractor Real.arith Real.trig 2 1.7%R 1.7%R 0.06%R 1.2%R
      = Ok (xs, ys) /\
    @clifford_attractor Real.arith Real.trig (2 + 3) 1.7%R 1.7%R 0.06%R 1.2%R
      = Ok (xs', ys') /\
    xs = take (Z.to_nat 2 + 1) xs' /\ ys = take (Z.to_nat 2 + 1) ys'.
Proof. apply (@clifford_prefix Real.arith Real.trig); lia. Defined.

(** X16: the parameters of [spiral], [dragon], [fern_leaf] and
    [maple_leaf] meet the preconditions of [ifs] (thresholds strictly
    descending, ending in -1.0, arrays of equal length); so for every
    iteration count [lvl >= 0] and draws from [0, 1) each of them returns
    [lvl + 1] points, every point after the first being the image of its
    predecessor under the first map whose threshold is below the draw. *)
Theorem ifs_presets (lvl : Z) (g : @Rng Float.arith) :
  (0 <= lvl)%Z ->
  (forall n, @unit_draw Float.arith (g n)) ->
  (@descending Float.arith Spiral.p /\
   @chaos_game Float.arith Spiral.p Spiral.a Spiral.b Spiral.c Spiral.d
     Spiral.e Spiral.f lvl g (spiral lvl g)) /\
  (@descending Float.arith Dragon.p /\
   @chaos_game Float.arith Dragon.p Dragon.a Dragon.b Dragon.c Dragon.d
     Dragon.e Dragon.f lvl g (dragon lvl g)) /\
  (@descending Float.arith FernLeaf.p /\
   @chaos_game Float.arith FernLeaf.p FernLeaf.a FernLeaf.b FernLeaf.c
     FernLeaf.d FernLeaf.e FernLeaf.f lvl g (fern_leaf lvl g)) /\
  (@descending Float.arith MapleLeaf.p /\
   @chaos_game Float.arith MapleLeaf.p MapleLeaf.a MapleLeaf.b MapleLeaf.c
     MapleLeaf.d MapleLeaf.e MapleLeaf.f lvl g (maple_leaf lvl g)).
Proof.
  intros Hlvl Hdraws.
  assert (forall p a b c d e f,
            @descending Float.arith p -> same_length p a b c d e f ->
            last p = Some (@fopp Float.arith fone) ->
            @descending Float.arith p /\
            @chaos_game Float.arith p a b c d e f lvl g
              (@ifs Float.arith p a b c d e f lvl g)) as Hpreset.
  { intros p a b c d e f Hdesc Hlen Hlast. split; [exact Hdesc|].
    by apply (@ifs_chaos_game Float.arith). }
  split; [|split; [|split]]; apply Hpreset;
    first [ reflexivity
          | unfold same_length; repeat apply conj; reflexivity
          | cbn [descending]; repeat apply conj; first [reflexivity | exact I] ].
Qed.

(** Witness of X16: three steps. *)
Lemma ifs_presets_witness :
  (@descending Float.arith Spiral.p /\
   @chaos_game Float.arith Spiral.p Spiral.a Spiral.b Spiral.c Spiral.d
     Spiral.e Spiral.f 3 Dragon.draws (spiral 3 Dragon.draws)) /\
  (@descending Float.arith Dragon.p /\
   @chaos_game Float.arith Dragon.p Dragon.a Dragon.b Dragon.c Dragon.d
     Dragon.e Dragon.f 3 Dragon.draws (dragon 3 Dragon.draws)) /\
  (@descending Float.arith FernLeaf.p /\
   @chaos_game Float.arith FernLeaf.p FernLeaf.a FernLeaf.b FernLeaf.c
     FernLeaf.d FernLeaf.e FernLeaf.f 3 Dragon.draws (fern_leaf 3 Dragon.draws)) /\
  (@descending Float.arith MapleLeaf.p /\
   @chaos_game Float.arith MapleLeaf.p MapleLeaf.a MapleLeaf.b MapleLeaf.c
     MapleLeaf.d MapleLeaf.e MapleLeaf.f 3 Dragon.draws
     (maple_leaf 3 Dragon.draws)).
Proof.
  apply ifs_presets; [lia|].
  intros n. unfold Dragon.draws. destruct (Nat.even n); split; reflexivity.
Defined.

Lemma lindemayer_points {A : Arith} {T : Trig A}
    (lvl : Z) (length init_angle angle : F)
    (init_state : string) (rewrite_rules : gmap string string) :
  exists px py,
    lindemayer lvl length init_angle angle init_state rewrite_rules = Ok (px, py) /\
    List.length px = count "F" (generate_pattern rewrite_rules lvl init_state) + 1 /\
    List.length py = count "F" (generate_pattern rewrite_rules lvl init_state) + 1 /\
    px !! 0 = Some fzero /\ py !! 0 = Some fzero.
Proof.
  unfold lindemayer.
  destruct (generate_points_polyline init_angle angle length
              (generate_pattern rewrite_rules lvl init_state)
              (clean_states_drawing _))
    as (_ & px & py & _ & Hok & Hpx & Hpy & Hx0 & Hy0 & _).
  by exists px, py.
Qed.

Lemma count_single_rule (text axiom : string) (N : nat) :
  count "F" (generate_pattern {[ "F" := text ]}%string (Z.of_nat N) axiom)
  = count "F" axiom * count "F" text ^ S N.
Proof.
  unfold generate_pattern. rewrite count_clean_states, rewrite_states_passes.
  replace (Z.to_nat (Z.of_nat N + 1)) with (S N) by lia.
  induction (S N) as [|n IH]; [simpl; lia|].
  rewrite !Nat.iter_succ. rewrite count_pass_single, IH.
  rewrite Nat.pow_succ_r'. lia.
Qed.

Lemma lindemayer_single_rule {A : Arith} {T : Trig A}
    (N : nat) (length init_angle angle : F) (axiom text : string) (k m n : nat) :
  count "F" axiom = k -> count "F" text = m -> n = k * m ^ S N + 1 ->
  returns_points
    (lindemayer (Z.of_nat N) length init_angle angle axiom {[ "F" := text ]}%string)
    n.
Proof.
  intros <- <- ->.
  destruct (lindemayer_points (Z.of_nat N) length init_angle angle axiom
              {[ "F" := text ]}%string) as (px & py & Hok & Hpx & Hpy & _).
  rewrite count_single_rule in Hpx, Hpy. by exists px, py.
Qed.

(** X17: the number of points of the presets with one rule, for
    iteration count [N >= 0]: [tetra_dragon] 3^(N+1) + 1, [levy_dragon]
    2^(N+1) + 1, [koch_snowflake] 3 * 4^(N+1) + 1, [koch_curve]
    4 * 8^(N+1) + 1, [sierpinski_triangle] 3 * 5^(N+1) + 1, [tiles]
    4 * 7^(N+1) + 1, [pentadendryt] 6^(N+1) + 1. *)
Theorem single_rule_presets_points {A : Arith} {T : Trig A}
    (N : nat) (length init_angle angle : F) :
  returns_points (tetra_dragon (Z.of_nat N) length init_angle angle)
    (3 ^ S N + 1) /\
  returns_points (levy_dragon (Z.of_nat N) length init_angle angle)
    (2 ^ S N + 1) /\
  returns_points (koch_snowflake (Z.of_nat N) length init_angle angle)
    (3 * 4 ^ S N + 1) /\
  returns_points (koch_curve (Z.of_nat N) length init_angle angle)
    (4 * 8 ^ S N + 1) /\
  returns_points (sierpinski_triangle (Z.of_nat N) length init_angle angle)
    (3 * 5 ^ S N + 1) /\
  returns_points (tiles (Z.of_nat N) length init_angle angle)
    (4 * 7 ^ S N + 1) /\
  returns_points (pentadendryt (Z.of_nat N) length init_angle angle)
    (6 ^ S N + 1).
Proof.
  repeat apply conj.
  - apply (lindemayer_single_rule N _ _ _ _ _ 1 3); [reflexivity.. | lia].
  - apply (lindemayer_single_rule N _ _ _ _ _ 1 2); [reflexivity.. | lia].
  - apply (lindemayer_single_rule N _ _ _ _ _ 3 4); [reflexivity.. | lia].
  - apply (lindemayer_single_rule N _ _ _ _ _ 4 8); [reflexivity.. | lia].
  - apply (lindemayer_single_rule N _ _ _ _ _ 3 5); [reflexivity.. | lia].
  - apply (lindemayer_single_rule N _ _ _ _ _ 4 7); [reflexivity.. | lia].
  - apply (lindemayer_single_rule N _ _ _ _ _ 1 6); [reflexivity.. | lia].
Qed.

Lemma constant_map_image (x0 y0 e : spec_float) :
  Float.regular x0 -> Float.regular y0 -> Float.regular e -> e <> S754_zero true ->
  SFadd Float.prec64 Float.emax64
    (SFadd Float.prec64 Float.emax64
       (SFmul Float.prec64 Float.emax64 (S754_zero false) x0)
       (SFmul Float.prec64 Float.emax64 (S754_zero false) y0)) e = e.
Proof.
  destruct x0 as [[]| | |[] ? ?]; try done;
    destruct y0 as [[]| | |[] ? ?]; try done;
    destruct e as [[]| | |? ? ?]; done.
Qed.

(** X19: in the float arithmetic, with the single map of threshold -1.0,
    zero linear part and translation [(e, f)], every point of [ifs] after
    the first is [(e, f)] as rounded to the arrays' precision, provided [e]
    and [f] are numbers other than -0.0 whose rounding does not
    overflow. *)
Theorem ifs_constant_map (e f : spec_float) (lvl : Z) (g : @Rng Float.arith) :
  (0 <= lvl)%Z ->
  (forall n, @unit_draw Float.arith (g n)) ->
  Float.regular e -> e <> S754_zero true -> Float.regular (Float.to_float32 e) ->
  Float.regular f -> f <> S754_zero true -> Float.regular (Float.to_float32 f) ->
  exists xs ys g',
    @ifs Float.arith [SFopp (Float.of_Z 1)] [S754_zero false] [S754_zero false]
      [S754_zero false] [S754_zero false] [e] [f] lvl g = Ok (xs, ys, g') /\
    forall i, 1 <= i <= Z.to_nat lvl ->
      xs !! i = Some (Float.to_float32 e) /\ ys !! i = Some (Float.to_float32 f).
Proof.
  intros Hlvl Hdraws He He0 He32 Hf Hf0 Hf32.
  destruct (@ifs_run Float.arith [SFopp (Float.of_Z 1)] [S754_zero false]
              [S754_zero false] [S754_zero false] [S754_zero false] [e] [f]
              lvl g Hlvl)
    as (xs & ys & g' & Hrun & _ & _ & Hx0 & Hy0 & _ & Hsteps); [repeat split|].
  exists xs, ys, g'. split; [exact Hrun|].
  assert (forall i, i <= Z.to_nat lvl ->
            exists x y, xs !! i = Some x /\ ys !! i = Some y /\
                        Float.regular x /\ Float.regular y /\
                        (1 <= i -> x = Float.to_float32 e /\ y = Float.to_float32 f))
    as Hinv.
  { induction i as [|i IH]; intros Hi.
    - exists (S754_zero false), (S754_zero false). repeat split; try done; lia.
    - destruct IH as (x0 & y0 & Hxi & Hyi & Hrx & Hry & _); [lia|].
      destruct (Hsteps (S i)) as
        [(j & x0' & y0' & x1 & y1 & [(pj & Hpj & _) _] & Hx & Hy & Hx1 & Hy1 & Himg)
        |(Hno & _)]; [lia| |].
      + replace (S i - 1) with i in * by lia.
        pose proof (eq_trans (eq_sym Hxi) Hx) as Ex. injection Ex as <-.
        pose proof (eq_trans (eq_sym Hyi) Hy) as Ey. injection Ey as <-.
        destruct j as [|j]; [|done].
        destruct Himg as (aj & bj & cj & dj & ej & fj
                          & Ha & Hb & Hc & Hd & He' & Hf' & H1 & H2).
        simpl in Ha, Hb, Hc, Hd, He', Hf', H1, H2.
        injection Ha as <-. injection Hb as <-. injection Hc as <-.
        injection Hd as <-. injection He' as <-. injection Hf' as <-.
        assert (x1 = Float.to_float32 e) as ->.
        { etransitivity; [exact H1|]. f_equal. by apply constant_map_image. }
        assert (y1 = Float.to_float32 f) as ->.
        { etransitivity; [exact H2|]. f_equal. by apply constant_map_image. }
        exists (Float.to_float32 e), (Float.to_float32 f). done.
      + destruct (@sentinel_matches Float.arith [SFopp (Float.of_Z 1)]
                    (g (S i - 1)) eq_refl (Hdraws _) Hno). }
  intros i Hi. destruct (Hinv i) as (x & y & Hx & Hy & _ & _ & Heq); [lia|].
  destruct Heq as [-> ->]; [lia|]. done.
Qed.

(** Witness of X19: the translation (0.1, 5), four steps. *)
Lemma ifs_constant_map_witness :
  exists xs ys g',
    @ifs Float.arith [SFopp (Float.of_Z 1)] [S754_zero false] [S754_zero false]
      [S754_zero false] [S754_zero false] [Float.decimal 1 1] [Float.of_Z 5]
      4 Dragon.draws = Ok (xs, ys, g') /\
    forall i, 1 <= i <= Z.to_nat 4 ->
      xs !! i = Some (Float.to_float32 (Float.decimal 1 1)) /\
      ys !! i = Some (Float.to_float32 (Float.of_Z 5)).
Proof.
  apply ifs_constant_map; try done; try lia.
  intros n. unfold Dragon.draws. destruct (Nat.even n); split; reflexivity.
Defined.

(** X6: with a single rule, for [F], each pass multiplies the number of
    [F] by the number of [F] in the rule's text: after the [N + 1] passes
    of iteration count [N] the pattern holds
    [count('F', axiom) * count('F', text) ^ (N + 1)] symbols [F]. *)
Theorem generate_pattern_growth (text axiom : string) (N : nat) :
  count "F" (generate_pattern {[ "F" := text ]}%string (Z.of_nat N) axiom)
  = count "F" axiom * count "F" text ^ S N.
Proof. apply count_single_rule. Qed.

(** X8: [lindemayer] never fails in its computation of the points:
    [generate_points] always accepts the string [generate_pattern]
    returns, and yields one point more than that string has [F], the first
    at the origin. *)
Theorem lindemayer_total {A : Arith} {T : Trig A}
    (lvl : Z) (length init_angle angle : F)
    (init_state : string) (rewrite_rules : gmap string string) :
  exists px py,
    lindemayer lvl length init_angle angle init_state rewrite_rules = Ok (px, py) /\
    List.length px = count "F" (generate_pattern rewrite_rules lvl init_state) + 1 /\
    List.length py = count "F" (generate_pattern rewrite_rules lvl init_state) + 1 /\
    px !! 0 = Some fzero /\ py !! 0 = Some fzero.
Proof. apply lindemayer_points. Qed.

(** ** Growth of the patterns with rules for [X] and [Y] *)

Lemma count_symbol_cons (symbol : string) (ch : ascii) (rest : string) :
  count symbol (String ch rest)
  = (if decide (String ch EmptyString = symbol) then 1 else 0) + count symbol rest.
Proof. unfold count. cbn [chars]. rewrite filter_cons. by case_decide. Qed.

Section TwoRules.
Variables tx ty : string.

Lemma count_pass_two (symbol s : string) :
  count symbol (simultaneous_pass {[ "X" := tx; "Y" := ty ]}%string s)
  = count "X" s * count symbol tx + count "Y" s * count symbol ty
    + (if decide (symbol = "X" \/ symbol = "Y")%string then 0 else count symbol s).
Proof.
  induction s as [|ch s IH]; [by case_decide|].
  cbn [simultaneous_pass]. rewrite count_app, IH.
  rewrite !(count_symbol_cons _ ch s).
  destruct (decide (String ch EmptyString = "X"%string)) as [HX|HX].
  - rewrite HX, lookup_insert_eq.
    rewrite (decide_False (P := ("X" = "Y")%string)) by done.
    case_decide; [lia|]. rewrite decide_False by (intros <-; tauto). lia.
  - rewrite lookup_insert_ne by done.
    destruct (decide (String ch EmptyString = "Y"%string)) as [HY|HY].
    + rewrite HY, lookup_singleton_eq.
      case_decide; [lia|]. rewrite decide_False by (intros <-; tauto). lia.
    + rewrite lookup_singleton_ne by done.
      rewrite (count_symbol_cons symbol ch ""). change (count symbol "") with 0.
      repeat case_decide; try lia; subst; tauto.
Qed.

Variables m' : nat.
Hypothesis Htx : count "X" tx + count "Y" tx = S m'.
Hypothesis Hty : count "X" ty + count "Y" ty = S m'.
Hypothesis HFx : count "F" tx = m'.
Hypothesis HFy : count "F" ty = m'.

Lemma count_iter_two (axiom : string) (n : nat) :
  let s := Nat.iter n (simultaneous_pass {[ "X" := tx; "Y" := ty ]}%string) axiom in
  let u := count "X" axiom + count "Y" axiom in
  count "X" s + count "Y" s = u * S m' ^ n /\
  count "F" s + u = count "F" axiom + u * S m' ^ n.
Proof.
  induction n as [|n [IHu IHF]]; [simpl; lia|].
  cbv zeta in *. rewrite Nat.iter_succ, !count_pass_two.
  rewrite !decide_True by auto. rewrite decide_False by (intros [|]; done).
  rewrite HFx, HFy, Nat.pow_succ_r'.
  set (s := Nat.iter n (simultaneous_pass {[ "X" := tx; "Y" := ty ]}%string) axiom) in *.
  set (u := count "X" axiom + count "Y" axiom) in *.
  set (w := S m' ^ n) in *.
  split; nia.
Qed.
End TwoRules.

Lemma lindemayer_two_rules {A : Arith} {T : Trig A}
    (N : nat) (length init_angle angle : F) (axiom tx ty : string)
    (m' u f0 n : nat) :
  count "X" tx + count "Y" tx = S m' -> count "X" ty + count "Y" ty = S m' ->
  count "F" tx = m' -> count "F" ty = m' ->
  count "X" axiom + count "Y" axiom = u -> count "F" axiom = f0 ->
  n + u = f0 + u * S m' ^ S N + 1 ->
  returns_points
    (lindemayer (Z.of_nat N) length init_angle angle axiom
       {[ "X" := tx; "Y" := ty ]}%string)
    n.
Proof.
  intros Htx Hty HFx HFy Hu Hf0 Hn.
  destruct (lindemayer_points (Z.of_nat N) length init_angle angle axiom
              {[ "X" := tx; "Y" := ty ]}%string) as (px & py & Hok & Hpx & Hpy & _).
  unfold generate_pattern in Hpx, Hpy.
  rewrite count_clean_states, rewrite_states_passes in Hpx, Hpy.
  replace (Z.to_nat (Z.of_nat N + 1)) with (S N) in * by lia.
  destruct (count_iter_two tx ty m' Htx Hty HFx HFy axiom (S N)) as [_ HF].
  cbv zeta in HF. rewrite Hu, Hf0 in HF.
  exists px, py. split; [exact Hok|]. lia.
Qed.

(** X20: the number of points of the presets with rules for [X] and [Y],
    for iteration count [N >= 0]: [heighway_dragon] 2^(N+1) + 1,
    [twin_dragon] 2 * 2^(N+1) + 1, [hilbert_curve] 4^(N+1), [moor_curve]
    4 * 4^(N+1), [peano_curve] 9^(N+1). *)
Theorem two_rule_presets_points {A : Arith} {T : Trig A}
    (N : nat) (length init_angle angle : F) :
  returns_points (heighway_dragon (Z.of_nat N) length init_angle angle)
    (2 ^ S N + 1) /\
  returns_points (twin_dragon (Z.of_nat N) length init_angle angle)
    (2 * 2 ^ S N + 1) /\
  returns_points (hilbert_curve (Z.of_nat N) length init_angle angle)
    (4 ^ S N) /\
  returns_points (moor_curve (Z.of_nat N) length init_angle angle)
    (4 * 4 ^ S N) /\
  returns_points (peano_curve (Z.of_nat N) length init_angle angle)
    (9 ^ S N).
Proof.
  repeat apply conj.
  - apply (lindemayer_two_rules N _ _ _ _ _ _ 1 1 1); [reflexivity.. | lia].
  - apply (lindemayer_two_rules N _ _ _ _ _ _ 1 2 2); [reflexivity.. | lia].
  - apply (lindemayer_two_rules N _ _ _ _ _ _ 3 1 0); [reflexivity.. | lia].
  - apply (lindemayer_two_rules N _ _ _ _ _ _ 3 4 3); [reflexivity.. | lia].
  - apply (lindemayer_two_rules N _ _ _ _ _ _ 8 1 0); [reflexivity.. | lia].
Qed.
